(** * The registry configuration synchronizer (Go package [system_config])

    A shallow embedding of [SystemConfigSyncer] and of the configuration
    model it guards: the registries model ([registriesConf]), the signature
    policy ([policyConf]), the certificate tuples and the persistence pass.

    Go values with reference semantics live in an explicit heap:
    - a [*registryConf] is an address into [objs];
    - a [map[string]*registryConf] is a reference into [rmaps];
    - the outer [map[string]map[string][]policyEntry] is a reference into
      [tmaps]; each inner map has a single owner (the outer map) and is
      kept inline.  A key that is absent from the outer map reads as the
      nil inner map.
    A nil map is the reference [None]: reading it yields the zero value,
    assigning to it panics.

    Methods with a value receiver ([func (rsc registriesConf) ...],
    [func (pc policyConf) ...]) receive a copy of the struct, so they are
    computations over the heap alone: what they assign to a field of the
    receiver is local to the call.  Methods of [*SystemConfigSyncer] run
    over the whole [world].  The mutex is not modelled: every operation
    holds it from its first to its last statement, so the operations are
    taken as atomic steps. *)

From Stdlib Require Import String Ascii.
From stdpp Require Import gmap strings list fin_maps.

(** ** A state monad with panics *)

Inductive outcome (S A : Type) : Type :=
| Done (a : A) (s : S)
| Panic (msg : string) (s : S).
Arguments Done {S A} a s.
Arguments Panic {S A} msg s.

Definition M (S A : Type) : Type := S -> outcome S A.

Definition ret {S A} (a : A) : M S A := fun s => Done a s.

Definition bind {S A B} (c : M S A) (k : A -> M S B) : M S B :=
  fun s => match c s with
           | Done a s' => k a s'
           | Panic msg s' => Panic msg s'
           end.

Definition gets {S A} (f : S -> A) : M S A := fun s => Done (f s) s.

Definition modify {S} (f : S -> S) : M S unit := fun s => Done tt (f s).

Notation "'let!' x ':=' c 'in' k" := (bind c (fun x => k))
  (at level 10, x name, c at level 100, k at level 200).

(** [for _, x := range l { body }] *)
Fixpoint for_range {S A} (l : list A) (body : A -> M S unit) : M S unit :=
  match l with
  | [] => ret tt
  | x :: l' => let! _ := body x in for_range l' body
  end.

(** ** Data model *)

(** Addresses of [registryConf] objects and of map objects. *)
Abbreviation ptr := nat.
Abbreviation ref := nat.

(** Blocked, Allowed and Insecure are [*bool]: [None] is the nil pointer. *)
Record registryConf := mkRegistryConf {
  Location : string;
  Prefix : string;
  Mirrors : list string;
  Blocked : option bool;
  Allowed : option bool;
  Insecure : option bool
}.

Record registriesConf := mkRegistriesConf {
  UnqualifiedSearchRegistries : list string;
  ShortNameMode : string;
  Registries : list ptr;
  registriesMap : option ref
}.

Record policyEntry := mkPolicyEntry { Type' : string }.

Record policyConf := mkPolicyConf {
  Default : list policyEntry;
  Transports : option ref
}.

Record registryCertTuple := mkRegistryCertTuple {
  registry : string;
  cert : string
}.

Record heap := mkHeap {
  objs : list registryConf;
  rmaps : list (gmap string ptr);
  tmaps : list (gmap string (gmap string (list policyEntry)))
}.

(** The fields of [SystemConfigSyncer]; [ch] counts the values that have
    been handed over on the unbuffered channel. *)
Record SystemConfigSyncer := mkSyncer {
  registriesConfContent : registriesConf;
  policyConfContent : policyConf;
  registryCertTuples : list registryCertTuple;
  ch : nat
}.

Record world := mkWorld {
  syncer : SystemConfigSyncer;
  mem : heap
}.

(** The two errors the package builds with [fmt.Errorf], and the errors
    the operating system and the encoders hand back during a pass. *)
Inductive error :=
| ErrOnlyOneOf               (* "only one of allowedRegistries and blockedRegistries can be set. ..." *)
| ErrRegistryNotFound (r : string)  (* "registry %s not found" *)
| ErrIO (msg : string).

(** ** Heap primitives *)

Definition set_objs (o : list registryConf) (h : heap) : heap :=
  mkHeap o (rmaps h) (tmaps h).
Definition set_rmaps (r : list (gmap string ptr)) (h : heap) : heap :=
  mkHeap (objs h) r (tmaps h).
Definition set_tmaps (t : list (gmap string (gmap string (list policyEntry)))) (h : heap) : heap :=
  mkHeap (objs h) (rmaps h) t.

(** [&registryConf{...}] *)
Definition new_registryConf (v : registryConf) : M heap ptr :=
  fun h => Done (length (objs h)) (set_objs (objs h ++ [v]) h).

(** [rc.f = v] through a pointer. *)
Definition assign_through (rc : ptr) (f : registryConf -> registryConf) : M heap unit :=
  fun h => match objs h !! rc with
           | Some v => Done tt (set_objs (<[rc := f v]> (objs h)) h)
           | None => Panic "invalid memory address or nil pointer dereference" h
           end.

(** [m[k]] on a [map[string]*registryConf]; a nil map reads as empty. *)
Definition rmap_index (m : option ref) (k : string) : M heap (option ptr) :=
  fun h => match m with
           | None => Done None h
           | Some r => match rmaps h !! r with
                       | Some t => Done (t !! k) h
                       | None => Panic "invalid map reference" h
                       end
           end.

(** [m[k] = v] on a [map[string]*registryConf]. *)
Definition rmap_assign (m : option ref) (k : string) (v : ptr) : M heap unit :=
  fun h => match m with
           | None => Panic "assignment to entry in nil map" h
           | Some r => match rmaps h !! r with
                       | Some t => Done tt (set_rmaps (<[r := <[k := v]> t]> (rmaps h)) h)
                       | None => Panic "invalid map reference" h
                       end
           end.

(** A map literal of type [map[string]map[string][]policyEntry]. *)
Definition new_tmap (t : gmap string (gmap string (list policyEntry))) : M heap ref :=
  fun h => Done (length (tmaps h)) (set_tmaps (tmaps h ++ [t]) h).

(** [m[transport][registry] = v]: reads the inner map, then assigns to it. *)
Definition tmap_assign (m : option ref) (transport registry : string)
    (v : list policyEntry) : M heap unit :=
  fun h => match m with
           | None => Panic "assignment to entry in nil map" h
           | Some r =>
             match tmaps h !! r with
             | Some t =>
               match t !! transport with
               | Some inner =>
                 Done tt (set_tmaps (<[r := <[transport := <[registry := v]> inner]> t]> (tmaps h)) h)
               | None => Panic "assignment to entry in nil map" h
               end
             | None => Panic "invalid map reference" h
             end
           end.

(** ** registries.conf model (part_001) *)

Definition set_Registries (l : list ptr) (rsc : registriesConf) : registriesConf :=
  mkRegistriesConf (UnqualifiedSearchRegistries rsc) (ShortNameMode rsc) l (registriesMap rsc).

(** [func (rsc registriesConf) getRegistryConfOrCreate(registry string) *registryConf].
    The receiver is a copy: the [append] updates the copy's slice header
    only, and the copy is dropped on return. *)
Definition getRegistryConfOrCreate (rsc : registriesConf) (registry : string) : M heap ptr :=
  let! rc := rmap_index (registriesMap rsc) registry in
  match rc with
  | Some rc => ret rc
  | None =>
    let! rc := new_registryConf (mkRegistryConf registry "" [] None None None) in
    let! _ := rmap_assign (registriesMap rsc) registry rc in
    let rsc := set_Registries (Registries rsc ++ [rc]) rsc in
    ret rc
  end.

(** [func (rsc registriesConf) getRegistryConf(registry string)], returning a [*registryConf] and a [bool]:
    the result is [Some rc] exactly when [ok] is true. *)
Definition getRegistryConf (rsc : registriesConf) (registry : string) : M heap (option ptr) :=
  rmap_index (registriesMap rsc) registry.

Definition defaultRegistriesConf : registriesConf :=
  mkRegistriesConf ["registry.access.redhat.com"; "docker.io"] "" [] None.

(** ** policy.json model (part_001) *)

Definition dockerDaemonTransport := "docker-daemon".
Definition dockerTransport := "docker".
Definition atomicTransport := "atomic".

Definition insecureAcceptAnythingPolicyEntry : policyEntry :=
  mkPolicyEntry "insecureAcceptAnything".

Definition rejectPolicyEntry : policyEntry := mkPolicyEntry "reject".

Definition defaultTransports_value : gmap string (gmap string (list policyEntry)) :=
  <[dockerDaemonTransport := <["" := [insecureAcceptAnythingPolicyEntry]]> ∅]>
    (<[atomicTransport := ∅]> (<[dockerTransport := ∅]> ∅)).

Definition defaultTransports : M heap ref := new_tmap defaultTransports_value.

Definition set_Transports (t : option ref) (pc : policyConf) : policyConf :=
  mkPolicyConf (Default pc) t.

(** [func (pc policyConf) resetTransports()]: assigns to the receiver copy. *)
Definition resetTransports (pc : policyConf) : M heap unit :=
  let! t := defaultTransports in
  let pc := set_Transports (Some t) pc in
  ret tt.

Definition setRejectForRegistryOnTransport (pc : policyConf) (registry transport : string)
    : M heap unit :=
  tmap_assign (Transports pc) transport registry [rejectPolicyEntry].

Definition setRejectForRegistry (pc : policyConf) (registry : string) : M heap unit :=
  let! _ := setRejectForRegistryOnTransport pc registry dockerTransport in
  setRejectForRegistryOnTransport pc registry atomicTransport.

Definition defaultPolicyConf : M heap policyConf :=
  let! t := defaultTransports in
  ret (mkPolicyConf [insecureAcceptAnythingPolicyEntry] (Some t)).

(** ** The folder name of a certificate tuple (part_001) *)

(** [strings.HasPrefix(s, prefix)] *)
Fixpoint HasPrefix (s prefix : string) {struct prefix} : bool :=
  match prefix with
  | EmptyString => true
  | String a prefix' =>
    match s with
    | EmptyString => false
    | String b s' => Ascii.eqb a b && HasPrefix s' prefix'
    end
  end.

(** [strings.Index(s, sep)] for a non-empty [sep]. *)
Fixpoint Index (s sep : string) : option nat :=
  if HasPrefix s sep then Some 0
  else match s with
       | EmptyString => None
       | String _ s' => S <$> Index s' sep
       end.

Fixpoint take_s (n : nat) (s : string) : string :=
  match n, s with
  | S n', String c s' => String c (take_s n' s')
  | _, _ => EmptyString
  end.

Fixpoint drop_s (n : nat) (s : string) : string :=
  match n, s with
  | S n', String _ s' => drop_s n' s'
  | _, _ => s
  end.

(** [strings.Replace(s, old, new, n)] for a non-empty [old] and [n >= 0]:
    the first [n] non-overlapping instances of [old], from the left. *)
Fixpoint Replace (s old new : string) (n : nat) : string :=
  match n with
  | 0 => s
  | S n' =>
    match Index s old with
    | None => s
    | Some j => take_s j s +:+ new +:+ Replace (drop_s (j + String.length old) s) old new n'
    end
  end.

Definition getFolderName (t : registryCertTuple) : string :=
  Replace (registry t) ".." ":" 1.

(** ** Mutation API (part_000) *)

Definition lift {A} (c : M heap A) : M world A :=
  fun w => match c (mem w) with
           | Done a h => Done a (mkWorld (syncer w) h)
           | Panic msg h => Panic msg (mkWorld (syncer w) h)
           end.

Definition set_registryCertTuples (t : list registryCertTuple) (s : SystemConfigSyncer)
    : SystemConfigSyncer :=
  mkSyncer (registriesConfContent s) (policyConfContent s) t (ch s).

(** [s.ch <- true]: the send returns once the worker has taken the value. *)
Definition send : M world unit :=
  modify (fun w =>
    let s := syncer w in
    mkWorld (mkSyncer (registriesConfContent s) (policyConfContent s)
                      (registryCertTuples s) (S (ch s)))
            (mem w)).

Definition set_Mirrors (m : list string) (rc : registryConf) : registryConf :=
  mkRegistryConf (Location rc) (Prefix rc) m (Blocked rc) (Allowed rc) (Insecure rc).
Definition set_Blocked (b : option bool) (rc : registryConf) : registryConf :=
  mkRegistryConf (Location rc) (Prefix rc) (Mirrors rc) b (Allowed rc) (Insecure rc).
Definition set_Allowed (b : option bool) (rc : registryConf) : registryConf :=
  mkRegistryConf (Location rc) (Prefix rc) (Mirrors rc) (Blocked rc) b (Insecure rc).
Definition set_Insecure (b : option bool) (rc : registryConf) : registryConf :=
  mkRegistryConf (Location rc) (Prefix rc) (Mirrors rc) (Blocked rc) (Allowed rc) b.

Definition StoreImageRegistryConf (allowedRegistries blockedRegistries insecureRegistries : list string)
    : M world (option error) :=
  if Nat.ltb 0 (length allowedRegistries) && Nat.ltb 0 (length blockedRegistries) then
    ret (Some ErrOnlyOneOf)
  else
    let! regs := gets (fun w => Registries (registriesConfContent (syncer w))) in
    let! _ := for_range regs (fun rc =>
      let! _ := lift (assign_through rc (set_Allowed None)) in
      let! _ := lift (assign_through rc (set_Blocked None)) in
      lift (assign_through rc (set_Insecure None))) in
    let! pc := gets (fun w => policyConfContent (syncer w)) in
    let! _ := lift (resetTransports pc) in
    let trueValue := true in
    let! _ := for_range allowedRegistries (fun registry =>
      let! rsc := gets (fun w => registriesConfContent (syncer w)) in
      let! rc := lift (getRegistryConfOrCreate rsc registry) in
      let! _ := lift (assign_through rc (set_Allowed (Some trueValue))) in
      lift (assign_through rc (set_Blocked None))) in
    let! _ := for_range blockedRegistries (fun registry =>
      let! rsc := gets (fun w => registriesConfContent (syncer w)) in
      let! rc := lift (getRegistryConfOrCreate rsc registry) in
      let! _ := lift (assign_through rc (set_Allowed None)) in
      let! _ := lift (assign_through rc (set_Blocked (Some trueValue))) in
      let! pc := gets (fun w => policyConfContent (syncer w)) in
      lift (setRejectForRegistry pc registry)) in
    let! _ := for_range insecureRegistries (fun registry =>
      let! rsc := gets (fun w => registriesConfContent (syncer w)) in
      let! rc := lift (getRegistryConfOrCreate rsc registry) in
      lift (assign_through rc (set_Insecure (Some trueValue)))) in
    let! _ := send in
    ret None.

Definition StoreRegistryCerts (tuples : list registryCertTuple) : M world (option error) :=
  let! _ := modify (fun w => mkWorld (set_registryCertTuples tuples (syncer w)) (mem w)) in
  let! _ := send in
  ret None.

Definition UpdateRegistryMirroringConfig (registry : string) (mirrors : list string)
    : M world (option error) :=
  let! rsc := gets (fun w => registriesConfContent (syncer w)) in
  let! rc := lift (getRegistryConfOrCreate rsc registry) in
  let! _ := lift (assign_through rc (set_Mirrors mirrors)) in
  let! _ := send in
  ret None.

Definition DeleteRegistryMirroringConfig (registry : string) : M world (option error) :=
  let! rsc := gets (fun w => registriesConfContent (syncer w)) in
  let! found := lift (getRegistryConf rsc registry) in
  match found with
  | Some rc =>
    let! _ := lift (assign_through rc (set_Mirrors [])) in
    let! _ := send in
    ret None
  | None => ret (Some (ErrRegistryNotFound registry))
  end.

Definition CleanupRegistryMirroringConfig : M world (option error) :=
  let! regs := gets (fun w => Registries (registriesConfContent (syncer w))) in
  let! _ := for_range regs (fun registry =>
    lift (assign_through registry (set_Mirrors []))) in
  let! _ := send in
  ret None.

(** [newSystemConfigSyncer], without the worker goroutine it starts. *)
Definition newSystemConfigSyncer : M heap SystemConfigSyncer :=
  let! pc := defaultPolicyConf in
  ret (mkSyncer defaultRegistriesConf pc [] 0).

Definition empty_heap : heap := mkHeap [] [] [].

(** The model right after construction (which does not panic: the second
    branch is never taken). *)
Definition fresh_world : world :=
  match newSystemConfigSyncer empty_heap with
  | Done s h => mkWorld s h
  | Panic _ h => mkWorld (mkSyncer defaultRegistriesConf (mkPolicyConf [] None) [] 0) h
  end.

(** A model whose location index has been allocated (an empty, non-nil
    map), everything else as in [fresh_world].  No function of the package
    builds it: [defaultRegistriesConf] leaves [registriesMap] nil. *)
Definition indexed_world : world :=
  mkWorld
    (mkSyncer (mkRegistriesConf ["registry.access.redhat.com"; "docker.io"] "" [] (Some 0))
              (mkPolicyConf [insecureAcceptAnythingPolicyEntry] (Some 0)) [] 0)
    (mkHeap [] [∅] [defaultTransports_value]).

(** ** The five mutation operations as calls, and the states they reach *)

Inductive mutation :=
| SetRegistryPolicy (allowed blocked insecure : list string)
| ReplaceCertificates (tuples : list registryCertTuple)
| SetMirrors (registry : string) (mirrors : list string)
| ClearMirrors (registry : string)
| ClearAllMirrors.

Definition run (c : mutation) : M world (option error) :=
  match c with
  | SetRegistryPolicy a b i => StoreImageRegistryConf a b i
  | ReplaceCertificates t => StoreRegistryCerts t
  | SetMirrors r m => UpdateRegistryMirroringConfig r m
  | ClearMirrors r => DeleteRegistryMirroringConfig r
  | ClearAllMirrors => CleanupRegistryMirroringConfig
  end.

(** A call that panics unwinds through the deferred unlock; a caller that
    recovers goes on with the state the panic left behind, so those states
    count as reachable too. *)
Inductive reachable : world -> Prop :=
| reach_fresh : reachable fresh_world
| reach_return c w e w' : reachable w -> run c w = Done e w' -> reachable w'
| reach_panic c w msg w' : reachable w -> run c w = Panic msg w' -> reachable w'.

(** ** Views of a model state *)

(** The location index as a finite map; the nil map has no key. *)
Definition index_of (w : world) : gmap string ptr :=
  match registriesMap (registriesConfContent (syncer w)) with
  | None => ∅
  | Some r => default ∅ (rmaps (mem w) !! r)
  end.

(** The entry the index holds for a location. *)
Definition entry (w : world) (r : string) : option registryConf :=
  match index_of w !! r with
  | Some p => objs (mem w) !! p
  | None => None
  end.

(** The ordered sequence of entries. *)
Definition sequence_of (w : world) : list ptr :=
  Registries (registriesConfContent (syncer w)).

Definition transports_of (w : world) : gmap string (gmap string (list policyEntry)) :=
  match Transports (policyConfContent (syncer w)) with
  | None => ∅
  | Some r => default ∅ (tmaps (mem w) !! r)
  end.

(** The rule list a transports map holds for a registry on a transport. *)
Definition rules_in (t : gmap string (gmap string (list policyEntry)))
    (transport r : string) : list policyEntry :=
  match t !! transport with
  | Some inner => default [] (inner !! r)
  | None => []
  end.

Definition rules_on (w : world) (transport r : string) : list policyEntry :=
  rules_in (transports_of w) transport r.

(** Every pointer the model holds is allocated, and so is the index when
    it is not nil: what Go's memory safety gives for free. *)
Definition allocated (w : world) : Prop :=
  (∀ m, registriesMap (registriesConfContent (syncer w)) = Some m →
        is_Some (rmaps (mem w) !! m)) ∧
  (∀ k p, index_of w !! k = Some p → is_Some (objs (mem w) !! p)) ∧
  (∀ p, p ∈ sequence_of w → is_Some (objs (mem w) !! p)).

Definition has_reject (w : world) (transport r : string) : Prop :=
  rejectPolicyEntry ∈ rules_on w transport r.

(** A registry is blocked when an entry of the model (listed in the
    sequence or held by the index) with that location has Blocked set. *)
Definition is_blocked (w : world) (r : string) : Prop :=
  ∃ p rc, (p ∈ sequence_of w ∨ ∃ k, index_of w !! k = Some p) ∧
          objs (mem w) !! p = Some rc ∧ Location rc = r ∧ Blocked rc = Some true.

(** The index and the sequence hold the same entries, each under its own
    location. *)
Definition index_mirrors_sequence (w : world) : Prop :=
  (∀ p, p ∈ sequence_of w →
        ∃ rc, objs (mem w) !! p = Some rc ∧ index_of w !! Location rc = Some p) ∧
  (∀ k p, index_of w !! k = Some p →
          p ∈ sequence_of w ∧ ∃ rc, objs (mem w) !! p = Some rc ∧ Location rc = k).

(** The shape of the model right after construction: no entry in the
    sequence, a nil index, and the policy's transports map, allocated
    first, holding the default rule lists. *)
Definition pristine (w : world) : Prop :=
  registriesConfContent (syncer w) = defaultRegistriesConf ∧
  policyConfContent (syncer w) = mkPolicyConf [insecureAcceptAnythingPolicyEntry] (Some 0) ∧
  tmaps (mem w) !! 0 = Some defaultTransports_value.

(** The entry the index holds for a location satisfies a predicate. *)
Definition holds (ψ : registryConf → Prop) (w : world) (r : string) : Prop :=
  ∃ rc, entry w r = Some rc ∧ ψ rc.

(** The three marks SetRegistryPolicy leaves on an entry. *)
Definition marked_allowed (rc : registryConf) : Prop :=
  Allowed rc = Some true ∧ Blocked rc = None.
Definition marked_blocked (rc : registryConf) : Prop :=
  Blocked rc = Some true ∧ Allowed rc = None.
Definition marked_insecure (rc : registryConf) : Prop :=
  Insecure rc = Some true.

(** Occurrence of a separator in a string. *)
Definition occurs (sep s : string) : Prop := ∃ a b, s = a +:+ sep +:+ b.

(** ** The persistence pass (part_000 [sync], part_001 writers) *)

Definition RegistriesConfPath := "/tmp/containers/registries.conf".
Definition PolicyConfPath := "/tmp/containers/policy.json".
Definition DockerCertsDir := "/tmp/docker/certs.d".

(** What the pass asks of its environment.  Every call takes the
    filesystem as it finds it and leaves it as the call left it, together
    with the error it reports, if any; nothing is assumed about either.
    [os_Stat_IsNotExist p] is [os.IsNotExist(err)] for the [err] of
    [os.Stat(p)]; the encoders write the encoding of their argument, whose
    pointers they follow in the heap, to the file created at the path. *)
Record OS (fs : Type) := mkOS {
  os_Stat_IsNotExist : string -> fs -> bool;
  os_MkdirAll : string -> fs -> fs * option string;
  os_Create : string -> fs -> fs * option string;
  os_RemoveAll : string -> fs -> fs * option string;
  file_WriteString : string -> string -> fs -> fs * option string;
  toml_Encode : string -> registriesConf -> heap -> fs -> fs * option string;
  json_Encode : string -> policyConf -> heap -> fs -> fs * option string
}.
Arguments os_Stat_IsNotExist {fs} _ _ _.
Arguments os_MkdirAll {fs} _ _ _.
Arguments os_Create {fs} _ _ _.
Arguments os_RemoveAll {fs} _ _ _.
Arguments file_WriteString {fs} _ _ _ _.
Arguments toml_Encode {fs} _ _ _ _ _.
Arguments json_Encode {fs} _ _ _ _ _.

(** The calls that can change the filesystem, with the path they act on. *)
Inductive io_call :=
| CallMkdirAll (path : string)
| CallCreate (path : string)
| CallEncode (path : string)
| CallWriteString (path data : string)
| CallRemoveAll (path : string).

Definition io_path (c : io_call) : string :=
  match c with
  | CallMkdirAll p | CallCreate p | CallEncode p | CallWriteString p _ | CallRemoveAll p => p
  end.

(** The worker's view: the model, the filesystem, and the calls issued so
    far, oldest first. *)
Record io_state (fs : Type) := mkIO {
  model : world;
  disk : fs;
  calls : list io_call
}.
Arguments mkIO {fs} _ _ _.
Arguments model {fs} _.
Arguments disk {fs} _.
Arguments calls {fs} _.

Definition sys {fs} (c : io_call) (f : fs -> fs * option string)
    : M (io_state fs) (option string) :=
  fun st => let r := f (disk st) in
            Done (snd r) (mkIO (model st) (fst r) (calls st ++ [c])).

(** [filepath.Dir] on a clean slash-separated path: all but the last
    element. *)
Fixpoint before_last_slash (p : string) : option string :=
  match p with
  | EmptyString => None
  | String c p' =>
    match before_last_slash p' with
    | Some d => Some (String c d)
    | None => if Ascii.eqb c "/" then Some EmptyString else None
    end
  end.

Definition filepath_Dir (p : string) : string :=
  match before_last_slash p with
  | None => "."
  | Some EmptyString => "/"
  | Some d => d
  end.

Definition createBaseDir {fs} (os : OS fs) (path : string) : M (io_state fs) unit :=
  let baseDir := filepath_Dir path in
  let! missing := gets (fun st => os_Stat_IsNotExist os baseDir (disk st)) in
  if (missing : bool) then
    let! _ := sys (CallMkdirAll baseDir) (os_MkdirAll os baseDir) in ret tt
  else ret tt.

Definition writeTomlFile {fs} (os : OS fs) (path : string) (data : registriesConf)
    : M (io_state fs) (option error) :=
  let! _ := createBaseDir os path in
  let! err := sys (CallCreate path) (os_Create os path) in
  match err with
  | Some e => ret (Some (ErrIO e))
  | None =>
    let! h := gets (fun st => mem (model st)) in
    let! err := sys (CallEncode path) (toml_Encode os path data h) in
    ret (ErrIO <$> err)
  end.

Definition writeJSONFile {fs} (os : OS fs) (path : string) (data : policyConf)
    : M (io_state fs) (option error) :=
  let! _ := createBaseDir os path in
  let! err := sys (CallCreate path) (os_Create os path) in
  match err with
  | Some e => ret (Some (ErrIO e))
  | None =>
    let! h := gets (fun st => mem (model st)) in
    let! err := sys (CallEncode path) (json_Encode os path data h) in
    ret (ErrIO <$> err)
  end.

Definition registriesConf_writeToFile {fs} (os : OS fs) (rsc : registriesConf) :=
  writeTomlFile os RegistriesConfPath rsc.

Definition policyConf_writeToFile {fs} (os : OS fs) (pc : policyConf) :=
  writeJSONFile os PolicyConfPath pc.

Definition registryCertTuple_writeToFile {fs} (os : OS fs) (t : registryCertTuple)
    : M (io_state fs) (option error) :=
  let absoluteFolderPath := DockerCertsDir +:+ "/" +:+ getFolderName t in
  let! missing := gets (fun st => os_Stat_IsNotExist os absoluteFolderPath (disk st)) in
  let! err := (if (missing : bool)
               then sys (CallMkdirAll absoluteFolderPath) (os_MkdirAll os absoluteFolderPath)
               else ret None) in
  match err with
  | Some e => ret (Some (ErrIO e))
  | None =>
    let absoluteFilePath := DockerCertsDir +:+ "/" +:+ getFolderName t +:+ "/ca.crt" in
    let! err := sys (CallCreate absoluteFilePath) (os_Create os absoluteFilePath) in
    match err with
    | Some e => ret (Some (ErrIO e))
    | None =>
      let! err := sys (CallWriteString absoluteFilePath (cert t))
                      (file_WriteString os absoluteFilePath (cert t)) in
      match err with
      | Some e => ret (Some (ErrIO e))
      | None => ret None
      end
    end
  end.

(** [for _, x := range l { if err := body(x); err != nil { return err } }] *)
Fixpoint for_range_err {S A} (l : list A) (body : A -> M S (option error))
    : M S (option error) :=
  match l with
  | [] => ret None
  | x :: l' =>
    let! err := body x in
    match err with
    | Some e => ret (Some e)
    | None => for_range_err l' body
    end
  end.

Definition sync {fs} (os : OS fs) : M (io_state fs) (option error) :=
  let! rsc := gets (fun st => registriesConfContent (syncer (model st))) in
  let! err := registriesConf_writeToFile os rsc in
  match err with
  | Some e => ret (Some e)
  | None =>
    let! pc := gets (fun st => policyConfContent (syncer (model st))) in
    let! err := policyConf_writeToFile os pc in
    match err with
    | Some e => ret (Some e)
    | None =>
      let! err := sys (CallRemoveAll DockerCertsDir) (os_RemoveAll os DockerCertsDir) in
      match err with
      | Some e => ret (Some (ErrIO e))
      | None =>
        let! tuples := gets (fun st => registryCertTuples (syncer (model st))) in
        for_range_err tuples (registryCertTuple_writeToFile os)
      end
    end
  end.

(** *** The pass as the specification words it *)

Inductive step :=
| StepRegistries
| StepPolicy
| StepRemoveCerts
| StepWriteCert (t : registryCertTuple).

(** The steps of a pass over a model, in their fixed order. *)
Definition plan (w : world) : list step :=
  [StepRegistries; StepPolicy; StepRemoveCerts]
    ++ map StepWriteCert (registryCertTuples (syncer w)).

Definition exec {fs} (os : OS fs) (s : step) : M (io_state fs) (option error) :=
  match s with
  | StepRegistries =>
    let! rsc := gets (fun st => registriesConfContent (syncer (model st))) in
    registriesConf_writeToFile os rsc
  | StepPolicy =>
    let! pc := gets (fun st => policyConfContent (syncer (model st))) in
    policyConf_writeToFile os pc
  | StepRemoveCerts =>
    let! err := sys (CallRemoveAll DockerCertsDir) (os_RemoveAll os DockerCertsDir) in
    ret (ErrIO <$> err)
  | StepWriteCert t => registryCertTuple_writeToFile os t
  end.

(** [pass os steps st done r st']: from [st], the steps are taken in order
    until one fails or none is left; [done] lists the steps taken, [r] is
    the failure of the last of them, if it failed, and [st'] is the state
    that step left. *)
Inductive pass {fs} (os : OS fs)
    : list step -> io_state fs -> list step -> option error -> io_state fs -> Prop :=
| pass_end st : pass os [] st [] None st
| pass_abort s rest st e st1 :
    exec os s st = Done (Some e) st1 ->
    pass os (s :: rest) st [s] (Some e) st1
| pass_next s rest st st1 done r st' :
    exec os s st = Done None st1 ->
    pass os rest st1 done r st' ->
    pass os (s :: rest) st (s :: done) r st'.

(** The filesystem calls a step may issue, by the path they act on. *)
Definition step_call (s : step) (c : io_call) : Prop :=
  match s with
  | StepRegistries =>
    io_path c = filepath_Dir RegistriesConfPath ∨ io_path c = RegistriesConfPath
  | StepPolicy =>
    io_path c = filepath_Dir PolicyConfPath ∨ io_path c = PolicyConfPath
  | StepRemoveCerts => c = CallRemoveAll DockerCertsDir
  | StepWriteCert t =>
    io_path c = DockerCertsDir +:+ "/" +:+ getFolderName t ∨
    io_path c = DockerCertsDir +:+ "/" +:+ getFolderName t +:+ "/ca.crt"
  end.

(** A path at or below a directory (as a string prefix). *)
Definition under (dir p : string) : bool := HasPrefix p dir.

(** An operating system whose calls are local, as seen through the
    content of the file at each path: creating directories changes no
    file, creating or writing a file changes no other file, and removing
    a directory changes no file outside it.  A failed call is free to
    leave its own target in any state. *)
Record os_local {fs} (os : OS fs) (content : fs → string → option string) : Prop :=
  mk_os_local {
  MkdirAll_local : ∀ p d q, content (os_MkdirAll os p d).1 q = content d q;
  Create_local : ∀ p d q, q ≠ p → content (os_Create os p d).1 q = content d q;
  WriteString_local : ∀ p data d q,
      q ≠ p → content (file_WriteString os p data d).1 q = content d q;
  toml_Encode_local : ∀ p rsc h d q,
      q ≠ p → content (toml_Encode os p rsc h d).1 q = content d q;
  json_Encode_local : ∀ p pc h d q,
      q ≠ p → content (json_Encode os p pc h d).1 q = content d q;
  RemoveAll_local : ∀ p d q,
      under p q = false → content (os_RemoveAll os p d).1 q = content d q
}.

(** The paths whose file a step leaves alone on such a system. *)
Definition step_keeps (s : step) (q : string) : Prop :=
  match s with
  | StepRegistries => q ≠ RegistriesConfPath
  | StepPolicy => q ≠ PolicyConfPath
  | StepRemoveCerts => under DockerCertsDir q = false
  | StepWriteCert t => q ≠ DockerCertsDir +:+ "/" +:+ getFolderName t +:+ "/ca.crt"
  end.

(** A small filesystem to run passes on: files by path, directories
    implicit; creating a file at a path in [deny] fails, every other call
    succeeds.  The encoders write a fixed text. *)
Definition files_os (deny : list string) : OS (gmap string string) :=
  mkOS (gmap string string)
    (λ p d, bool_decide (filter (λ kv, under p kv.1 = true) d = ∅))
    (λ p d, (d, None))
    (λ p d, if bool_decide (p ∈ deny) then (d, Some "permission denied")
            else (<[p := ""]> d, None))
    (λ p d, (filter (λ kv, under p kv.1 = false) d, None))
    (λ p data d, (<[p := data]> d, None))
    (λ p rsc h d, (<[p := "unqualified-search-registries = [...]"]> d, None))
    (λ p pc h d, (<[p := "{...}"]> d, None)).

(** ** Certificates from the config map (part_000 [ParseRegistryCerts]) *)

(** [for k, v := range dataMap] visits every entry of the map once, in an
    order the runtime chooses: [yielded] is such a visit of [m]. *)
Definition range_of (m : gmap string string) (yielded : list (string * string)) : Prop :=
  yielded ≡ₚ map_to_list m.

(** [ParseRegistryCerts], on the entries in the order the loop meets them:
    each is appended to the slice, which starts nil. *)
Definition ParseRegistryCerts (yielded : list (string * string)) : list registryCertTuple :=
  foldl (λ registryCertTuples kv,
           registryCertTuples ++ [mkRegistryCertTuple kv.1 kv.2])
        [] yielded.

(** ** The state a call leaves, however it ends *)

Definition after {S A} (o : outcome S A) : S :=
  match o with
  | Done _ s => s
  | Panic _ s => s
  end.

(** ** Event handlers (package [openshift] and [main]) *)

Module openshift.

(** The objects the informers hand over, as far as the handlers read
    them; [Other] is any object of another type. *)
Record RepositoryDigestMirrors := mkRepositoryDigestMirrors {
  Source : string;
  Mirrors : list string
}.

Record ImageContentSourcePolicy := mkImageContentSourcePolicy {
  icsp_Name : string;
  Spec_RepositoryDigestMirrors : list RepositoryDigestMirrors
}.

Record ConfigMap := mkConfigMap {
  cm_Name : string;
  Data : gmap string string
}.

Inductive object :=
| ICSP (icsp : ImageContentSourcePolicy)
| CM (cm : ConfigMap)
| Other.

(** icsp.go.  A returned error is logged and the loop continues. *)
Definition ICSPOnAdd (obj : object) : M world unit :=
  match obj with
  | ICSP icsp =>
    for_range (Spec_RepositoryDigestMirrors icsp) (fun source =>
      let! err := UpdateRegistryMirroringConfig (Source source) (Mirrors source) in
      match err with
      | Some _ => ret tt
      | None => ret tt
      end)
  | _ => ret tt
  end.

Definition ICSPOnDelete (obj : object) : M world unit :=
  match obj with
  | ICSP icsp =>
    for_range (Spec_RepositoryDigestMirrors icsp) (fun source =>
      let! err := DeleteRegistryMirroringConfig (Source source) in
      match err with
      | Some _ => ret tt
      | None => ret tt
      end)
  | _ => ret tt
  end.

Definition ICSPOnUpdate (oldobj newobj : object) : M world unit :=
  let! _ := ICSPOnDelete oldobj in
  ICSPOnAdd newobj.

(** registry_certificates.go.  [yielded] is the visit of [cm.Data] that
    [ParseRegistryCerts] makes. *)
Definition registryCertificatesConfigMapOnAddOrUpdate
    (obj : object) (yielded : list (string * string)) : M world unit :=
  match obj with
  | CM cm =>
    if negb (String.eqb (cm_Name cm) "image-registry-certificates") then ret tt
    else
      let! err := StoreRegistryCerts (ParseRegistryCerts yielded) in
      match err with
      | Some _ => ret tt
      | None => ret tt
      end
  | _ => ret tt
  end.

Definition RegistryCertificatesConfigMapOnUpdate (oldobj newobj : object) :=
  registryCertificatesConfigMapOnAddOrUpdate newobj.

Definition RegistryCertificatesConfigMapOnAdd (obj : object) :=
  registryCertificatesConfigMapOnAddOrUpdate obj.

End openshift.

(** main.go, the handler of the cluster image configuration inside
    [initializeOCPSystemConfigSyncerInformersWatchers]. *)
Inductive EventType := Added | Modified | Deleted | Bookmark | Error.

Record RegistrySources := mkRegistrySources {
  AllowedRegistries : list string;
  BlockedRegistries : list string;
  InsecureRegistries : list string
}.

Definition imageConfigHandler (et : EventType) (image : RegistrySources) : M world unit :=
  match et with
  | Deleted | Bookmark => ret tt
  | _ =>
    let! err := StoreImageRegistryConf (AllowedRegistries image) (BlockedRegistries image)
                                       (InsecureRegistries image) in
    match err with
    | Some _ => ret tt
    | None => ret tt
    end
  end.

(** ** Further views *)

(** The sources a handler of policies loops over: those of the policy, and
    none for an object of another type. *)
Definition sources_of (obj : openshift.object) : list openshift.RepositoryDigestMirrors :=
  match obj with
  | openshift.ICSP icsp => openshift.Spec_RepositoryDigestMirrors icsp
  | _ => []
  end.

(** The mirrors the last source of a list gives for a registry. *)
Fixpoint last_mirrors (sources : list openshift.RepositoryDigestMirrors) (r : string)
    : option (list string) :=
  match sources with
  | [] => None
  | s :: sources' =>
    match last_mirrors sources' r with
    | Some m => Some m
    | None => if String.eqb (openshift.Source s) r then Some (openshift.Mirrors s) else None
    end
  end.

(** The entry [getRegistryConfOrCreate] allocates for a location. *)
Definition created (r : string) : registryConf := mkRegistryConf r "" [] None None None.

(** The index is well formed: it is allocated when it is not nil, its
    pointers are allocated, and no two locations share an entry. *)
Definition index_wf (w : world) : Prop :=
  (∀ m, registriesMap (registriesConfContent (syncer w)) = Some m →
        is_Some (rmaps (mem w) !! m)) ∧
  (∀ k p, index_of w !! k = Some p → p < length (objs (mem w))) ∧
  (∀ k1 k2 p, index_of w !! k1 = Some p → index_of w !! k2 = Some p → k1 = k2).

(** The events the handler of the image configuration drops without a
    change to the model: deletions and bookmarks, and objects that set
    both the allowed and the blocked list. *)
Definition dropped (et : EventType) (image : RegistrySources) : bool :=
  match et with
  | Deleted | Bookmark => true
  | _ => Nat.ltb 0 (length (AllowedRegistries image))
         && Nat.ltb 0 (length (BlockedRegistries image))
  end.

(** What the loops of SetRegistryPolicy assign to an entry: the reset, and
    the marks for a registry of the allowed, the blocked and the insecure
    list. *)
Definition unmark (rc : registryConf) : registryConf :=
  set_Insecure None (set_Blocked None (set_Allowed None rc)).
Definition mark_allowed (rc : registryConf) : registryConf :=
  set_Blocked None (set_Allowed (Some true) rc).
Definition mark_blocked (rc : registryConf) : registryConf :=
  set_Blocked (Some true) (set_Allowed None rc).
Definition mark_insecure (rc : registryConf) : registryConf :=
  set_Insecure (Some true) rc.

(** The entry of a registry after a loop that assigns [f] to the entry,
    created on demand, of every registry of a list. *)
Definition named (f : registryConf → registryConf) (l : list string) (r : string)
    (e : option registryConf) : option registryConf :=
  if bool_decide (r ∈ l) then Some (f (default (created r) e)) else e.

(** The entry the index holds for a location is also listed in the
    sequence. *)
Definition listed (w : world) (r : string) : bool :=
  match index_of w !! r with
  | Some p => bool_decide (p ∈ sequence_of w)
  | None => false
  end.

(** The model of [indexed_world] after "quay.io" has been allowed. *)
Definition allowed_world : world :=
  after (StoreImageRegistryConf ["quay.io"] [] [] indexed_world).

(** The file a tuple's certificate is written to. *)
Definition cert_path (t : registryCertTuple) : string :=
  DockerCertsDir +:+ "/" +:+ getFolderName t +:+ "/ca.crt".

(** The certificate the last tuple written to a path carries. *)
Fixpoint last_cert (tuples : list registryCertTuple) (q : string) : option string :=
  match tuples with
  | [] => None
  | t :: tuples' =>
    match last_cert tuples' q with
    | Some c => Some c
    | None => if String.eqb (cert_path t) q then Some (cert t) else None
    end
  end.

(** What a successful call leaves, on top of locality: a removed directory
    holds no file, a created file is empty, and a string written to an
    empty file is its content. *)
Record os_exact {fs} (os : OS fs) (content : fs → string → option string) : Prop :=
  mk_os_exact {
  exact_local : os_local os content;
  RemoveAll_ok : ∀ p d q,
      (os_RemoveAll os p d).2 = None → under p q = true →
      content (os_RemoveAll os p d).1 q = None;
  Create_ok : ∀ p d,
      (os_Create os p d).2 = None → content (os_Create os p d).1 p = Some "";
  WriteString_ok : ∀ p data d,
      (file_WriteString os p data d).2 = None → content d p = Some "" →
      content (file_WriteString os p data d).1 p = Some data
}.

(** No rule list of a transports map in the heap loses a reject rule. *)
Definition tmaps_mono (h h' : heap) : Prop :=
  ∀ k t, tmaps h !! k = Some t →
    ∃ t', tmaps h' !! k = Some t' ∧
          ∀ transport r, rejectPolicyEntry ∈ rules_in t transport r →
                         rejectPolicyEntry ∈ rules_in t' transport r.

(** The part of the synchronizer that names the model's sequence and
    maps. *)
Definition configuration (w : world) : registriesConf * policyConf :=
  (registriesConfContent (syncer w), policyConfContent (syncer w)).

(** The model of [indexed_world] after "docker.io" has been blocked. *)
Definition blocked_world : world :=
  after (StoreImageRegistryConf [] ["docker.io"] [] indexed_world).

(** The model of [indexed_world] after mirrors have been set for
    "quay.io". *)
Definition mirrored_world : world :=
  after (UpdateRegistryMirroringConfig "quay.io" ["mirror.example.com"] indexed_world).

(** A model whose one entry, allowed and mirrored, is both listed in the
    sequence and held by the index: what the package's types allow and a
    test of the package can build. *)
Definition listed_world : world :=
  mkWorld
    (mkSyncer (mkRegistriesConf ["registry.access.redhat.com"; "docker.io"] "" [0] (Some 0))
              (mkPolicyConf [insecureAcceptAnythingPolicyEntry] (Some 0)) [] 0)
    (mkHeap [mkRegistryConf "quay.io" "" ["mirror.example.com"] None (Some true) None]
            [<["quay.io" := 0]> ∅] [defaultTransports_value]).

(** ** Specifications of computations *)

(** [triple P c Q R]: from a state in [P], [c] returns in [Q] or panics
    in [R]. *)
Definition triple {S A} (P : S → Prop) (c : M S A) (Q : A → S → Prop) (R : S → Prop)
    : Prop :=
  ∀ s, P s → match c s with
             | Done a s' => Q a s'
             | Panic _ s' => R s'
             end.

(** A computation that, when it returns, returns no error. *)
Definition no_error {S} (c : M S (option error)) : Prop :=
  ∀ s e s', c s ≠ Done (Some e) s'.

(** * Properties *)

(** ** Folder names *)

Section FolderName.

Local Abbreviation dot := "."%char.

Lemma prefix_dotdot s :
  HasPrefix s ".." = true ↔ ∃ rest, s = String dot (String dot rest).
Proof.
  split.
  - destruct s as [|c [|d rest]]; cbn [HasPrefix]; rewrite ?andb_true_r.
    + discriminate.
    + by rewrite andb_false_r.
    + intros [Hc Hd]%andb_prop.
      apply Ascii.eqb_eq in Hc as <-. apply Ascii.eqb_eq in Hd as <-.
      by exists rest.
  - intros [rest ->]. reflexivity.
Qed.

Lemma occurs_cons sep c s : occurs sep s → occurs sep (String c s).
Proof. intros (a & b & ->). by exists (String c a), b. Qed.

Lemma occurs_here rest : occurs ".." (String dot (String dot rest)).
Proof. by exists "", rest. Qed.

Lemma occurs_tail c s :
  occurs ".." (String c s) → HasPrefix (String c s) ".." = true ∨ occurs ".." s.
Proof.
  intros ([|c' a] & b & E); simpl in E.
  - left. apply prefix_dotdot. exists b. by rewrite E.
  - right. injection E as _ ->. by exists a, b.
Qed.

Lemma Index_Some_occurs s n : Index s ".." = Some n → occurs ".." s.
Proof.
  revert n. induction s as [|c s IH]; intros n.
  - discriminate.
  - cbn [Index]. destruct (HasPrefix (String c s) "..") eqn:Hp.
    + intros _. apply prefix_dotdot in Hp as [rest ->]. apply occurs_here.
    + destruct (Index s "..") as [k|]; [|discriminate].
      intros _. apply occurs_cons. by apply (IH k).
Qed.

Lemma Index_None_occurs s : Index s ".." = None → ¬ occurs ".." s.
Proof.
  induction s as [|c s IH].
  - intros _ ([|? ?] & b & E); discriminate.
  - cbn [Index]. destruct (HasPrefix (String c s) "..") eqn:Hp; [discriminate|].
    destruct (Index s "..") as [k|]; [discriminate|].
    intros _ Ho. apply occurs_tail in Ho as [Ho|Ho]; [congruence|].
    by apply IH.
Qed.

Lemma Index_None_iff s : Index s ".." = None ↔ ¬ occurs ".." s.
Proof.
  split; [apply Index_None_occurs|].
  intros Hn. destruct (Index s "..") as [n|] eqn:Hi; [|done].
  exfalso. apply Hn. by apply (Index_Some_occurs _ n).
Qed.

(** The position [strings.Index] reports is that of the first occurrence. *)
Lemma Index_first pre post :
  ¬ occurs ".." (pre +:+ ".") →
  Index (pre +:+ ".." +:+ post) ".." = Some (String.length pre).
Proof.
  induction pre as [|c pre IH]; intros Hn.
  - reflexivity.
  - change (Index (String c (pre +:+ ".." +:+ post)) ".." = Some (S (String.length pre))).
    cbn [Index].
    destruct (HasPrefix (String c (pre +:+ ".." +:+ post)) "..") eqn:Hp.
    + exfalso. apply Hn. apply prefix_dotdot in Hp as [rest E].
      injection E as -> E.
      destruct pre as [|d pre]; simpl in *.
      * apply occurs_here.
      * injection E as -> _. apply occurs_here.
    + rewrite IH; [done|]. intros Ho. apply Hn. by apply occurs_cons.
Qed.

Lemma take_s_app pre s : take_s (String.length pre) (pre +:+ s) = pre.
Proof. induction pre as [|c pre IH]; simpl; [by destruct s|by rewrite IH]. Qed.

Lemma drop_s_app pre s : drop_s (String.length pre) (pre +:+ s) = s.
Proof. induction pre as [|c pre IH]; simpl; [by destruct s|done]. Qed.

Lemma drop_s_add n k s : drop_s (n + k) s = drop_s k (drop_s n s).
Proof.
  revert s. induction n as [|n IH]; intros s; simpl.
  - by destruct k, s.
  - destruct s; [by destruct k|]. apply IH.
Qed.

End FolderName.

(** C8. The folder name of a tuple is its registry name with the first
    occurrence of the two characters [..] replaced by [:] and every other
    character kept: a name [pre..post] in which [..] starts nowhere before
    the end of [pre] maps to [pre:post], and a name without [..] maps to
    itself.  So "docker.io..5000" maps to "docker.io:5000" and "docker.io"
    to itself; the certificate plays no part. *)
Theorem getFolderName_replaces_first_dotdot :
  (∀ pre post c,
      ¬ occurs ".." (pre +:+ ".") →
      getFolderName (mkRegistryCertTuple (pre +:+ ".." +:+ post) c) = pre +:+ ":" +:+ post) ∧
  (∀ name c,
      ¬ occurs ".." name →
      getFolderName (mkRegistryCertTuple name c) = name) ∧
  (∀ c, getFolderName (mkRegistryCertTuple "docker.io..5000" c) = "docker.io:5000") ∧
  (∀ c, getFolderName (mkRegistryCertTuple "docker.io" c) = "docker.io").
Proof.
  split; [|split; [|split]].
  - intros pre post c Hn. unfold getFolderName. cbn [registry Replace].
    rewrite Index_first by done.
    rewrite take_s_app, drop_s_add, drop_s_app. reflexivity.
  - intros name c Hn. unfold getFolderName. cbn [registry Replace].
    apply Index_None_iff in Hn. by rewrite Hn.
  - reflexivity.
  - reflexivity.
Qed.

Lemma getFolderName_replaces_first_dotdot_witness :
  getFolderName (mkRegistryCertTuple "registry.example.com..5000" "PEM") =
    "registry.example.com:5000" ∧
  getFolderName (mkRegistryCertTuple "quay.io" "PEM") = "quay.io".
Proof.
  split.
  - apply (proj1 getFolderName_replaces_first_dotdot "registry.example.com" "5000" "PEM").
    apply Index_None_iff. vm_compute. reflexivity.
  - apply (proj1 (proj2 getFolderName_replaces_first_dotdot) "quay.io" "PEM").
    apply Index_None_iff. vm_compute. reflexivity.
Defined.

(** ** Reasoning about computations *)

Section Triples.
Context {S : Type}.
Implicit Types (P R : S → Prop).

Lemma triple_ret {A} (a : A) (Q : A → S → Prop) R : triple (Q a) (ret a) Q R.
Proof. by intros s H. Qed.

Lemma triple_bind {A B} P (c : M S A) (k : A → M S B) Q Q' R :
  triple P c Q R → (∀ a, triple (Q a) (k a) Q' R) → triple P (bind c k) Q' R.
Proof.
  intros Hc Hk s HP. unfold bind. specialize (Hc s HP).
  destruct (c s) as [a s'|msg s']; [by apply Hk|done].
Qed.

Lemma triple_gets {A} (f : S → A) P R :
  triple P (gets f) (λ a s, a = f s ∧ P s) R.
Proof. by intros s H. Qed.

(** A loop keeps what each of its rounds keeps. *)
Lemma triple_for_range {A} (I : S → Prop) R (body : A → M S unit) l :
  (∀ x, x ∈ l → triple I (body x) (λ _, I) R) →
  triple I (for_range l body) (λ _, I) R.
Proof.
  induction l as [|x l IH]; intros Hb.
  - by intros s H.
  - cbn [for_range]. eapply triple_bind.
    + apply Hb. by left.
    + intros []. apply IH. intros y Hy. apply Hb. by right.
Qed.

End Triples.

(** Inversion of computations that returned. *)
Lemma bind_Done {S A B} (c : M S A) (k : A → M S B) s b s' :
  bind c k s = Done b s' → ∃ a s1, c s = Done a s1 ∧ k a s1 = Done b s'.
Proof. unfold bind. destruct (c s) as [a s1|]; [eauto|discriminate]. Qed.

Lemma lift_Done {A} (c : M heap A) w a w' :
  lift c w = Done a w' → ∃ h, c (mem w) = Done a h ∧ w' = mkWorld (syncer w) h.
Proof.
  unfold lift. destruct (c (mem w)) as [a' h|]; [|discriminate].
  intros [= -> <-]. eauto.
Qed.

Lemma for_range_Done {S A} (I : list A → S → Prop) (body : A → M S unit) :
  (∀ done x s s', I done s → body x s = Done tt s' → I (done ++ [x]) s') →
  ∀ l done s s', I done s → for_range l body s = Done tt s' → I (done ++ l) s'.
Proof.
  intros Hb. induction l as [|x l IH]; intros done s s' HI.
  - intros [= <-]. by rewrite app_nil_r.
  - cbn [for_range]. intros (u & s1 & H1 & H2)%bind_Done. destruct u.
    replace (done ++ x :: l) with ((done ++ [x]) ++ l) by by rewrite <- app_assoc.
    eapply IH; [|exact H2]. by eapply Hb.
Qed.

Lemma ret_Done {S A} (a b : A) (s s' : S) : ret a s = Done b s' → a = b ∧ s = s'.
Proof. by intros [= -> ->]. Qed.

Lemma gets_Done {S A} (f : S → A) (b : A) (s s' : S) :
  gets f s = Done b s' → b = f s ∧ s' = s.
Proof. by intros [= <- <-]. Qed.

Ltac inv_run :=
  repeat match goal with
  | H : bind _ _ _ = Done _ _ |- _ =>
      apply bind_Done in H; destruct H as (? & ? & ? & H)
  | H : gets _ _ = Done _ _ |- _ => apply gets_Done in H; destruct H as [? ?]
  | H : ret _ _ = Done _ _ |- _ => apply ret_Done in H; destruct H as [? ?]
  end; subst.

(** ** The states the operations reach from the fresh model *)

Lemma getRegistryConfOrCreate_nil rsc r h :
  registriesMap rsc = None →
  getRegistryConfOrCreate rsc r h =
    Panic "assignment to entry in nil map"
          (set_objs (objs h ++ [mkRegistryConf r "" [] None None None]) h).
Proof.
  intros Hnil. unfold getRegistryConfOrCreate, bind, rmap_index, rmap_assign.
  rewrite Hnil. reflexivity.
Qed.

Lemma pristine_fresh : pristine fresh_world.
Proof. repeat split. Qed.

Lemma pristine_set_objs sy h o :
  pristine (mkWorld sy h) → pristine (mkWorld sy (set_objs o h)).
Proof. by intros (? & ? & ?). Qed.

Lemma pristine_new_tmap sy h t :
  pristine (mkWorld sy h) → pristine (mkWorld sy (set_tmaps (tmaps h ++ [t]) h)).
Proof.
  intros (? & ? & Ht). repeat split; [done..|]. cbn.
  rewrite lookup_app_l; [done|]. by eapply lookup_lt_Some.
Qed.

Lemma pristine_send : triple pristine send (λ _, pristine) pristine.
Proof. by intros [sy h] (? & ? & ?). Qed.

Lemma pristine_resetTransports pc :
  triple pristine (lift (resetTransports pc)) (λ _, pristine) pristine.
Proof. intros [sy h] Hp. by apply pristine_new_tmap. Qed.

(** With a nil index, a round that starts by looking an entry up, creating
    it if absent, never gets past the creation. *)
Lemma pristine_create_round {A} (k : ptr → M world A) r :
  triple pristine
    (let! rsc := gets (λ w, registriesConfContent (syncer w)) in
     let! rc := lift (getRegistryConfOrCreate rsc r) in
     k rc)
    (λ _, pristine) pristine.
Proof.
  intros [sy h] Hp. unfold bind, gets, lift. cbn [mem syncer].
  rewrite getRegistryConfOrCreate_nil.
  - by apply pristine_set_objs.
  - destruct Hp as (E & _). cbn in E. by rewrite E.
Qed.

Lemma pristine_StoreImageRegistryConf a b i :
  triple pristine (StoreImageRegistryConf a b i) (λ _, pristine) pristine.
Proof.
  unfold StoreImageRegistryConf.
  destruct (_ && _); [by intros w Hp|].
  eapply triple_bind; [apply triple_gets|]. intros regs.
  eapply triple_bind with (Q := λ _, pristine).
  { intros w [-> Hp]. destruct Hp as (E & Hp). rewrite E. cbn. by split. }
  intros [].
  eapply triple_bind with (Q := λ _, pristine); [by intros w Hp|].
  intros pc.
  eapply triple_bind; [apply pristine_resetTransports|]. intros [].
  eapply triple_bind.
  { apply triple_for_range. intros r _. apply pristine_create_round. }
  intros []. eapply triple_bind.
  { apply triple_for_range. intros r _. apply pristine_create_round. }
  intros []. eapply triple_bind.
  { apply triple_for_range. intros r _. apply pristine_create_round. }
  intros []. eapply triple_bind; [apply pristine_send|].
  intros []. by intros w Hp.
Qed.

Lemma pristine_run c : triple pristine (run c) (λ _, pristine) pristine.
Proof.
  destruct c as [a b i|t|r m|r|]; cbn [run].
  - apply pristine_StoreImageRegistryConf.
  - by intros [sy h] (? & ? & ?).
  - unfold UpdateRegistryMirroringConfig. apply pristine_create_round.
  - intros [sy h] Hp. unfold DeleteRegistryMirroringConfig, bind, gets, lift.
    destruct Hp as (E & Hp). cbn in E. cbn. rewrite E. cbn. by split.
  - intros [sy h] Hp. unfold CleanupRegistryMirroringConfig, bind, gets.
    destruct Hp as (E & Hp). cbn in E. cbn. rewrite E. cbn. by split.
Qed.

Lemma reachable_pristine w : reachable w → pristine w.
Proof.
  induction 1 as [|c w e w' _ IH Hrun|c w msg w' _ IH Hrun].
  - apply pristine_fresh.
  - pose proof (pristine_run c w IH) as H. by rewrite Hrun in H.
  - pose proof (pristine_run c w IH) as H. by rewrite Hrun in H.
Qed.

Lemma pristine_transports w : pristine w → transports_of w = defaultTransports_value.
Proof. intros (_ & E & Ht). unfold transports_of. rewrite E. cbn. by rewrite Ht. Qed.

Lemma default_docker : defaultTransports_value !! dockerTransport = Some ∅.
Proof. reflexivity. Qed.

Lemma default_atomic : defaultTransports_value !! atomicTransport = Some ∅.
Proof. reflexivity. Qed.

Lemma pristine_no_reject w r :
  pristine w → ¬ has_reject w dockerTransport r ∧ ¬ has_reject w atomicTransport r.
Proof.
  intros Hp. unfold has_reject, rules_on, rules_in. rewrite (pristine_transports w Hp).
  rewrite default_docker, default_atomic, lookup_empty. cbn.
  split; apply not_elem_of_nil.
Qed.

(** C4. On the freshly constructed model SetMirrors does not return: the
    location index is the nil map, so creating the entry panics on the
    assignment into it, whatever the registry and the mirrors.  No entry
    is listed for the registry afterwards. *)
Theorem UpdateRegistryMirroringConfig_panics_on_fresh_model r m :
  ∃ w',
    UpdateRegistryMirroringConfig r m fresh_world =
      Panic "assignment to entry in nil map" w' ∧
    entry w' r = None ∧ sequence_of w' = [].
Proof. eexists. repeat split. Qed.

(** The same on every state the operations reach. *)
Lemma UpdateRegistryMirroringConfig_panics w r m :
  reachable w →
  ∃ w', UpdateRegistryMirroringConfig r m w = Panic "assignment to entry in nil map" w'.
Proof.
  intros (E & _)%reachable_pristine. destruct w as [sy h]. cbn in E.
  unfold UpdateRegistryMirroringConfig, bind, gets, lift. cbn [mem syncer].
  rewrite getRegistryConfOrCreate_nil by by rewrite E. eauto.
Qed.

(** C6. On the freshly constructed model SetMirrors(r, m) followed by
    ClearMirrors(r) does not leave r with an empty mirror list: the first
    call panics, and if the caller recovers, the second finds no entry
    for r and returns the not-found error without changing the model. *)
Theorem SetMirrors_then_ClearMirrors_on_fresh_model r m :
  ∃ w1,
    UpdateRegistryMirroringConfig r m fresh_world =
      Panic "assignment to entry in nil map" w1 ∧
    DeleteRegistryMirroringConfig r w1 = Done (Some (ErrRegistryNotFound r)) w1 ∧
    entry w1 r = None.
Proof. eexists. repeat split. Qed.

(** What ClearMirrors does on any model whose pointers are allocated: an
    unknown location is reported without touching the model, a known one
    has its mirror list emptied. *)
Lemma DeleteRegistryMirroringConfig_unknown w r :
  allocated w → index_of w !! r = None →
  DeleteRegistryMirroringConfig r w = Done (Some (ErrRegistryNotFound r)) w.
Proof.
  intros (Hm & _) Hr. destruct w as [sy h].
  unfold index_of in Hr. cbn in Hm, Hr.
  unfold DeleteRegistryMirroringConfig, bind, gets, lift, getRegistryConf, rmap_index.
  cbn [mem syncer].
  destruct (registriesMap (registriesConfContent sy)) as [m|]; [|done].
  destruct (Hm m eq_refl) as [t Ht]. rewrite Ht in Hr |- *. cbn in Hr.
  by rewrite Hr.
Qed.

Lemma DeleteRegistryMirroringConfig_known w r v :
  entry w r = Some v →
  ∃ w', DeleteRegistryMirroringConfig r w = Done None w' ∧
        entry w' r = Some (set_Mirrors [] v) ∧
        ch (syncer w') = S (ch (syncer w)).
Proof.
  destruct w as [sy h]. unfold entry, index_of. cbn [mem syncer].
  destruct (registriesMap (registriesConfContent sy)) as [m|] eqn:Em;
    [|by rewrite lookup_empty].
  destruct (rmaps h !! m) as [t|] eqn:Ht; cbn; [|by rewrite lookup_empty].
  destruct (t !! r) as [p|] eqn:Hr; [|done]. intros Hv.
  eexists.
  unfold DeleteRegistryMirroringConfig, bind, gets, lift, getRegistryConf, rmap_index,
    assign_through.
  cbn [mem syncer]. rewrite Em, Ht, Hr. cbn [mem syncer]. rewrite Hv.
  split; [reflexivity|]. split; [|reflexivity].
  unfold entry, index_of. cbn. rewrite Em, Ht. cbn. rewrite Hr.
  apply list_lookup_insert_eq. by eapply lookup_lt_Some.
Qed.

Lemma DeleteRegistryMirroringConfig_NotFound_iff w r :
  allocated w →
  (∃ e w', DeleteRegistryMirroringConfig r w = Done (Some e) w') ↔ index_of w !! r = None.
Proof.
  intros Ha. split.
  - intros (e & w' & Hrun). destruct (index_of w !! r) as [p|] eqn:Hr; [|done].
    destruct Ha as (_ & Hi & _). destruct (Hi r p Hr) as [v Hv].
    destruct (DeleteRegistryMirroringConfig_known w r v) as (w2 & H & _).
    { unfold entry. by rewrite Hr. }
    congruence.
  - intros Hr. eexists _, _. by apply DeleteRegistryMirroringConfig_unknown.
Qed.

(** ** Which calls can return an error *)

Lemma no_error_bind {S A} (c : M S A) (k : A → M S (option error)) :
  (∀ a, no_error (k a)) → no_error (bind c k).
Proof.
  intros Hk s e s'. unfold bind. destruct (c s) as [a s1|]; [apply Hk|done].
Qed.

Lemma no_error_ret {S} : no_error (ret (S := S) None).
Proof. by intros s e s'. Qed.

Ltac no_error := repeat (apply no_error_bind; intros); apply no_error_ret.

Lemma StoreRegistryCerts_no_error t : no_error (StoreRegistryCerts t).
Proof. unfold StoreRegistryCerts. no_error. Qed.

Lemma UpdateRegistryMirroringConfig_no_error r m :
  no_error (UpdateRegistryMirroringConfig r m).
Proof. unfold UpdateRegistryMirroringConfig. no_error. Qed.

Lemma CleanupRegistryMirroringConfig_no_error : no_error CleanupRegistryMirroringConfig.
Proof. unfold CleanupRegistryMirroringConfig. no_error. Qed.

(** C5. SetRegistryPolicy returns its error exactly when the allowed and
    the blocked lists are both non-empty, and then the whole model, the
    channel included, is as it was: either both lists are non-empty and
    the call returns the error on the unchanged state, or one of them is
    empty and the call returns no error. *)
Theorem StoreImageRegistryConf_error_iff_both_nonempty a b i w :
  (a ≠ [] ∧ b ≠ [] ∧ StoreImageRegistryConf a b i w = Done (Some ErrOnlyOneOf) w) ∨
  ((a = [] ∨ b = []) ∧ ∀ e w', StoreImageRegistryConf a b i w ≠ Done (Some e) w').
Proof.
  destruct a as [|x a], b as [|y b].
  - right. split; [by left|]. intros e w'. revert w e w'.
    change (no_error (StoreImageRegistryConf [] [] i)).
    unfold StoreImageRegistryConf. cbn [length Nat.ltb Nat.leb andb]. no_error.
  - right. split; [by left|]. intros e w'. revert w e w'.
    change (no_error (StoreImageRegistryConf [] (y :: b) i)).
    unfold StoreImageRegistryConf. cbn [length Nat.ltb Nat.leb andb]. no_error.
  - right. split; [by right|]. intros e w'. revert w e w'.
    change (no_error (StoreImageRegistryConf (x :: a) [] i)).
    unfold StoreImageRegistryConf. cbn [length Nat.ltb Nat.leb andb]. no_error.
  - left. repeat split; done.
Qed.

(** C10. On every state the operations reach, ReplaceCertificates returns
    success for every tuple sequence (which it installs) and
    ClearAllMirrors returns success; and a call that returns an error is a
    SetRegistryPolicy or a ClearMirrors call. *)
Theorem certificates_and_cleanup_return_success w :
  reachable w →
  (∀ tuples, ∃ w', StoreRegistryCerts tuples w = Done None w' ∧
                   registryCertTuples (syncer w') = tuples) ∧
  (∃ w', CleanupRegistryMirroringConfig w = Done None w') ∧
  (∀ c e w', run c w = Done (Some e) w' →
             (∃ a b i, c = SetRegistryPolicy a b i) ∨ (∃ r, c = ClearMirrors r)).
Proof.
  intros Hp%reachable_pristine. split; [|split].
  - intros tuples. eexists. split; reflexivity.
  - destruct Hp as (E & _). destruct w as [sy h]. cbn in E.
    unfold CleanupRegistryMirroringConfig, bind, gets. cbn [syncer].
    rewrite E. cbn. eauto.
  - intros c e w' Hrun. destruct c as [a b i|t|r m|r|]; cbn [run] in Hrun.
    + left. eauto.
    + by apply StoreRegistryCerts_no_error in Hrun.
    + by apply UpdateRegistryMirroringConfig_no_error in Hrun.
    + right. eauto.
    + by apply CleanupRegistryMirroringConfig_no_error in Hrun.
Qed.

Lemma certificates_and_cleanup_return_success_witness :
  (∃ w', StoreRegistryCerts [mkRegistryCertTuple "quay.io..8443" "PEM"] fresh_world
           = Done None w' ∧
         registryCertTuples (syncer w') = [mkRegistryCertTuple "quay.io..8443" "PEM"]) ∧
  (∃ w', CleanupRegistryMirroringConfig fresh_world = Done None w').
Proof.
  pose proof (certificates_and_cleanup_return_success fresh_world reach_fresh) as H.
  split; [apply (proj1 H)|apply (proj1 (proj2 H))].
Defined.

(** ** How one statement of an operation changes the views *)

Lemma assign_step w p f w1 :
  lift (assign_through p f) w = Done tt w1 →
  syncer w1 = syncer w ∧ index_of w1 = index_of w ∧
  transports_of w1 = transports_of w ∧
  ∃ v, objs (mem w) !! p = Some v ∧ objs (mem w1) = <[p := f v]> (objs (mem w)).
Proof.
  intros (h & Hh & ->)%lift_Done. unfold assign_through in Hh.
  destruct (objs (mem w) !! p) as [v|] eqn:Hv; [|discriminate].
  injection Hh as <-. repeat split. by exists v.
Qed.

Lemma assign_keeps ψ w p f w1 r :
  lift (assign_through p f) w = Done tt w1 →
  (∀ rc, ψ rc → ψ (f rc)) →
  holds ψ w r → holds ψ w1 r.
Proof.
  intros (_ & Hi & _ & v & Hv & Ho)%assign_step Hf (rc & He & Hψ).
  unfold holds, entry in *. rewrite Hi, Ho.
  destruct (index_of w !! r) as [q|]; [|discriminate].
  destruct (decide (q = p)) as [->|Hne].
  - rewrite list_lookup_insert_eq by by eapply lookup_lt_Some.
    exists (f v). split; [done|]. apply Hf. congruence.
  - rewrite list_lookup_insert_ne by done. eauto.
Qed.

Lemma assign_sets w p f w1 r :
  lift (assign_through p f) w = Done tt w1 →
  index_of w !! r = Some p →
  ∃ v, entry w r = Some v ∧ entry w1 r = Some (f v).
Proof.
  intros (_ & Hi & _ & v & Hv & Ho)%assign_step Hr.
  exists v. unfold entry. rewrite Hi, Ho, Hr. split; [done|].
  apply list_lookup_insert_eq. by eapply lookup_lt_Some.
Qed.

Lemma assign_has_reject w p f w1 transport r :
  lift (assign_through p f) w = Done tt w1 →
  has_reject w transport r → has_reject w1 transport r.
Proof.
  intros (_ & _ & Ht & _)%assign_step. unfold has_reject, rules_on. by rewrite Ht.
Qed.

Lemma create_step w rsc r p w1 :
  lift (getRegistryConfOrCreate rsc r) w = Done p w1 →
  rsc = registriesConfContent (syncer w) →
  syncer w1 = syncer w ∧ index_of w1 !! r = Some p ∧
  transports_of w1 = transports_of w ∧
  (∀ r' rc, entry w r' = Some rc → entry w1 r' = Some rc).
Proof.
  intros (h & Hh & ->)%lift_Done ->. destruct w as [sy h0]. cbn [mem syncer] in *.
  unfold getRegistryConfOrCreate in Hh.
  apply bind_Done in Hh as (found & h1 & Hidx & Hh).
  unfold rmap_index in Hidx. unfold entry, index_of, transports_of. cbn [mem syncer].
  destruct (registriesMap (registriesConfContent sy)) as [m|] eqn:Em.
  - destruct (rmaps h0 !! m) as [t|] eqn:Ht; [|discriminate].
    injection Hidx as <- <-. destruct (t !! r) as [q|] eqn:Hq.
    + injection Hh as <- <-. rewrite ?Ht. cbn. by repeat split.
    + apply bind_Done in Hh as (q & h2 & Hnew & Hh).
      apply bind_Done in Hh as ([] & h3 & Hasg & Hh).
      injection Hh as <- <-. injection Hnew as <- <-.
      unfold rmap_assign in Hasg. cbn [rmaps set_objs] in Hasg.
      rewrite Ht in Hasg. injection Hasg as <-.
      cbn [rmaps objs tmaps set_rmaps set_objs].
      rewrite list_lookup_insert_eq by by eapply lookup_lt_Some.
      cbn. repeat split.
      * apply lookup_insert_eq.
      * intros r' rc. destruct (decide (r' = r)) as [->|Hne].
        -- by rewrite Hq.
        -- rewrite lookup_insert_ne by done.
           destruct (t !! r') as [q'|]; [|done].
           intros Hrc. rewrite lookup_app_l; [done|]. by eapply lookup_lt_Some.
  - injection Hidx as <- <-.
    apply bind_Done in Hh as (q & h2 & Hnew & Hh).
    apply bind_Done in Hh as ([] & h3 & Hasg & Hh).
    discriminate Hasg.
Qed.

Lemma create_keeps ψ w rsc r p w1 r' :
  lift (getRegistryConfOrCreate rsc r) w = Done p w1 →
  rsc = registriesConfContent (syncer w) →
  holds ψ w r' → holds ψ w1 r'.
Proof.
  intros Hc Hrsc (rc & He & Hψ).
  destruct (create_step _ _ _ _ _ Hc Hrsc) as (_ & _ & _ & Hk).
  exists rc. split; [by apply Hk|done].
Qed.

Lemma create_has_reject w rsc r p w1 transport r' :
  lift (getRegistryConfOrCreate rsc r) w = Done p w1 →
  rsc = registriesConfContent (syncer w) →
  has_reject w transport r' → has_reject w1 transport r'.
Proof.
  intros Hc Hrsc. destruct (create_step _ _ _ _ _ Hc Hrsc) as (_ & _ & Ht & _).
  unfold has_reject, rules_on. by rewrite Ht.
Qed.

Lemma rules_in_insert (t : gmap string (gmap string (list policyEntry)))
    transport inner r v transport' r' :
  t !! transport = Some inner →
  rules_in (<[transport := <[r := v]> inner]> t) transport' r' =
    if decide (transport' = transport ∧ r' = r) then v else rules_in t transport' r'.
Proof.
  intros Ht. unfold rules_in.
  destruct (decide (transport' = transport)) as [->|Hne].
  - rewrite lookup_insert_eq, Ht.
    destruct (decide (r' = r)) as [->|Hr].
    + rewrite lookup_insert_eq. by rewrite decide_True.
    + rewrite lookup_insert_ne by done. rewrite decide_False; [done|]. by intros [_ ?].
  - rewrite lookup_insert_ne by done. rewrite decide_False; [done|]. by intros [? _].
Qed.

Lemma reject_step w pc r transport w1 :
  lift (setRejectForRegistryOnTransport pc r transport) w = Done tt w1 →
  pc = policyConfContent (syncer w) →
  syncer w1 = syncer w ∧ objs (mem w1) = objs (mem w) ∧ rmaps (mem w1) = rmaps (mem w) ∧
  ∀ transport' r',
    rules_on w1 transport' r' =
      if decide (transport' = transport ∧ r' = r) then [rejectPolicyEntry]
      else rules_on w transport' r'.
Proof.
  intros (h & Hh & ->)%lift_Done ->. destruct w as [sy h0]. cbn [mem syncer] in *.
  unfold setRejectForRegistryOnTransport, tmap_assign in Hh.
  unfold rules_on, transports_of. cbn [mem syncer].
  destruct (Transports (policyConfContent sy)) as [m|]; [|discriminate].
  destruct (tmaps h0 !! m) as [t|] eqn:Ht; [|discriminate].
  destruct (t !! transport) as [inner|] eqn:Hi; [|discriminate].
  injection Hh as <-. repeat split. intros transport' r'.
  cbn [tmaps set_tmaps].
  rewrite list_lookup_insert_eq by by eapply lookup_lt_Some.
  cbn. by apply rules_in_insert.
Qed.

Lemma entry_ext w w1 r :
  syncer w1 = syncer w → objs (mem w1) = objs (mem w) → rmaps (mem w1) = rmaps (mem w) →
  entry w1 r = entry w r.
Proof. intros Hs Ho Hm. unfold entry, index_of. by rewrite Hs, Ho, Hm. Qed.

Lemma setReject_step w pc r w1 :
  lift (setRejectForRegistry pc r) w = Done tt w1 →
  pc = policyConfContent (syncer w) →
  (∀ r', entry w1 r' = entry w r') ∧
  has_reject w1 dockerTransport r ∧ has_reject w1 atomicTransport r ∧
  (∀ transport r', has_reject w transport r' → has_reject w1 transport r').
Proof.
  intros (h & Hh & ->)%lift_Done Hpc. unfold setRejectForRegistry in Hh.
  apply bind_Done in Hh as ([] & h1 & H1 & H2).
  assert (lift (setRejectForRegistryOnTransport pc r dockerTransport) w
          = Done tt (mkWorld (syncer w) h1)) as L1.
  { unfold lift. by rewrite H1. }
  assert (lift (setRejectForRegistryOnTransport pc r atomicTransport)
               (mkWorld (syncer w) h1) = Done tt (mkWorld (syncer w) h)) as L2.
  { unfold lift. cbn [mem syncer]. by rewrite H2. }
  destruct (reject_step _ _ _ _ _ L1 Hpc) as (S1 & O1 & M1 & R1).
  destruct (reject_step _ _ _ _ _ L2 Hpc) as (S2 & O2 & M2 & R2).
  assert (∀ transport r', has_reject w transport r' →
                          has_reject (mkWorld (syncer w) h) transport r') as Hmono.
  { intros transport r'. unfold has_reject. rewrite R2, R1.
    repeat case_decide; try done; intros _; apply list_elem_of_here. }
  split; [|split; [|split]]; [| | |exact Hmono].
  - intros r'. rewrite (entry_ext _ _ r' S2 O2 M2). apply (entry_ext _ _ r' S1 O1 M1).
  - unfold has_reject. rewrite R2, R1.
    rewrite decide_False by (intros [? _]; discriminate).
    rewrite decide_True by done. apply list_elem_of_here.
  - unfold has_reject. rewrite R2. rewrite decide_True by done. apply list_elem_of_here.
Qed.

Lemma send_step w u w1 :
  send w = Done u w1 →
  (∀ r, entry w1 r = entry w r) ∧
  (∀ transport r, rules_on w1 transport r = rules_on w transport r).
Proof. intros [= _ <-]. by destruct w. Qed.

(** ** One round of each loop of SetRegistryPolicy *)

Lemma create_assign x f w q wa wb :
  lift (getRegistryConfOrCreate (registriesConfContent (syncer w)) x) w = Done q wa →
  lift (assign_through q f) wa = Done tt wb →
  index_of wb !! x = Some q ∧
  (∃ v, entry wb x = Some (f v)) ∧
  (∀ ψ r, (∀ rc, ψ rc → ψ (f rc)) → holds ψ w r → holds ψ wb r) ∧
  (∀ transport r, has_reject w transport r → has_reject wb transport r).
Proof.
  intros Hc H1.
  destruct (create_step _ _ _ _ _ Hc eq_refl) as (_ & Hidx & _ & _).
  destruct (assign_sets _ _ _ _ x H1 Hidx) as (v & _ & Hv).
  destruct (assign_step _ _ _ _ H1) as (_ & Hi & _).
  split; [by rewrite Hi|]. split; [by exists v|]. split.
  - intros ψ r Hk Hr. eapply assign_keeps; [exact H1|exact Hk|].
    eapply create_keeps; [exact Hc|done|done].
  - intros transport r Hr. eapply assign_has_reject; [exact H1|].
    eapply create_has_reject; [exact Hc|done|done].
Qed.

Lemma create_assign_assign x f1 f2 w q wa wb wc :
  lift (getRegistryConfOrCreate (registriesConfContent (syncer w)) x) w = Done q wa →
  lift (assign_through q f1) wa = Done tt wb →
  lift (assign_through q f2) wb = Done tt wc →
  (∃ v, entry wc x = Some (f2 (f1 v))) ∧
  (∀ ψ r, (∀ rc, ψ rc → ψ (f1 rc)) → (∀ rc, ψ rc → ψ (f2 rc)) →
          holds ψ w r → holds ψ wc r) ∧
  (∀ transport r, has_reject w transport r → has_reject wc transport r).
Proof.
  intros Hc H1 H2.
  destruct (create_assign _ _ _ _ _ _ Hc H1) as (Hidx & (v & Hv) & Hk & Hr).
  destruct (assign_sets _ _ _ _ x H2 Hidx) as (v' & Hv' & Hv2).
  rewrite Hv in Hv'. injection Hv' as <-.
  split; [by exists v|]. split.
  - intros ψ r Hk1 Hk2 Hh. eapply assign_keeps; [exact H2|exact Hk2|]. by apply Hk.
  - intros transport r Hh. eapply assign_has_reject; [exact H2|]. by apply Hr.
Qed.

Lemma round_allowed x w w' :
  (let! rsc := gets (λ w, registriesConfContent (syncer w)) in
   let! rc := lift (getRegistryConfOrCreate rsc x) in
   let! _ := lift (assign_through rc (set_Allowed (Some true))) in
   lift (assign_through rc (set_Blocked None))) w = Done tt w' →
  holds marked_allowed w' x ∧
  (∀ r, holds marked_allowed w r → holds marked_allowed w' r).
Proof.
  intros Hrun. inv_run.
  repeat match goal with u : unit |- _ => destruct u end.
  match goal with
  | Hc : lift (getRegistryConfOrCreate _ _) _ = _,
    H1 : lift (assign_through _ (set_Allowed _)) _ = _ |- _ =>
    destruct (create_assign_assign _ _ _ _ _ _ _ _ Hc H1 Hrun) as ((v & Hv) & Hk & _)
  end.
  split.
  - by exists (set_Blocked None (set_Allowed (Some true) v)).
  - intros r. apply Hk; by intros rc [? ?].
Qed.

Lemma round_blocked x w w' :
  (let! rsc := gets (λ w, registriesConfContent (syncer w)) in
   let! rc := lift (getRegistryConfOrCreate rsc x) in
   let! _ := lift (assign_through rc (set_Allowed None)) in
   let! _ := lift (assign_through rc (set_Blocked (Some true))) in
   let! pc := gets (λ w, policyConfContent (syncer w)) in
   lift (setRejectForRegistry pc x)) w = Done tt w' →
  (holds marked_blocked w' x ∧
   has_reject w' dockerTransport x ∧ has_reject w' atomicTransport x) ∧
  (∀ r, holds marked_blocked w r → holds marked_blocked w' r) ∧
  (∀ transport r, has_reject w transport r → has_reject w' transport r).
Proof.
  intros Hrun. inv_run.
  repeat match goal with u : unit |- _ => destruct u end.
  match goal with
  | Hc : lift (getRegistryConfOrCreate _ _) _ = _,
    H1 : lift (assign_through _ (set_Allowed _)) _ = _,
    H2 : lift (assign_through _ (set_Blocked _)) _ = _ |- _ =>
    destruct (create_assign_assign _ _ _ _ _ _ _ _ Hc H1 H2) as ((v & Hv) & Hk & Hr)
  end.
  destruct (setReject_step _ _ _ _ Hrun eq_refl) as (He & Hd & Ha & Hmono).
  split; [split; [|by split]|split].
  - exists (set_Blocked (Some true) (set_Allowed None v)). by rewrite He.
  - intros r Hh. destruct (Hk marked_blocked r) as (rc & Hrc & Hm);
      [by intros rc [? ?]|by intros rc [? ?]|done|].
    exists rc. by rewrite He.
  - intros transport r Hh. by apply Hmono, Hr.
Qed.

Lemma round_insecure x w w' :
  (let! rsc := gets (λ w, registriesConfContent (syncer w)) in
   let! rc := lift (getRegistryConfOrCreate rsc x) in
   lift (assign_through rc (set_Insecure (Some true)))) w = Done tt w' →
  holds marked_insecure w' x ∧
  (∀ r, holds marked_insecure w r → holds marked_insecure w' r) ∧
  (∀ r, holds marked_allowed w r → holds marked_allowed w' r) ∧
  (∀ r, holds marked_blocked w r → holds marked_blocked w' r) ∧
  (∀ transport r, has_reject w transport r → has_reject w' transport r).
Proof.
  intros Hrun. inv_run.
  match goal with
  | Hc : lift (getRegistryConfOrCreate _ _) _ = _ |- _ =>
    destruct (create_assign _ _ _ _ _ _ Hc Hrun) as (_ & (v & Hv) & Hk & Hr)
  end.
  split; [by exists (set_Insecure (Some true) v)|].
  split; [intros r; apply Hk; by intros rc ?|].
  split; [intros r; apply Hk; by intros rc [? ?]|].
  split; [intros r; apply Hk; by intros rc [? ?]|done].
Qed.

(** C1, as stated, fails on disjoint sets that are both non-empty: the
    call is refused, "quay.io" gets no entry and "docker.io" no reject
    rule. *)
Lemma StoreImageRegistryConf_refuses_disjoint_sets :
  (∀ r, r ∈ ["quay.io"] → r ∉ ["docker.io"]) ∧
  StoreImageRegistryConf ["quay.io"] ["docker.io"] [] fresh_world
    = Done (Some ErrOnlyOneOf) fresh_world ∧
  entry fresh_world "quay.io" = None ∧
  ¬ has_reject fresh_world dockerTransport "docker.io".
Proof.
  split; [|split; [reflexivity|split; [reflexivity|]]].
  - intros r ->%list_elem_of_singleton Hin%list_elem_of_singleton. discriminate.
  - apply pristine_no_reject, pristine_fresh.
Qed.

(** C1, amended.  A SetRegistryPolicy call that returns success was given
    an empty allowed list or an empty blocked list, and after it every
    registry of the allowed list has, under its location in the index, an
    entry with allowed set to true and blocked unset; every registry of
    the blocked list an entry with blocked set to true and allowed unset,
    and a reject rule on the docker and on the atomic transport; every
    registry of the insecure list an entry with insecure set to true. *)
Theorem StoreImageRegistryConf_marks_entries a b i w w' :
  StoreImageRegistryConf a b i w = Done None w' →
  (a = [] ∨ b = []) ∧
  (∀ r, r ∈ a → holds marked_allowed w' r) ∧
  (∀ r, r ∈ b → holds marked_blocked w' r ∧
                has_reject w' dockerTransport r ∧ has_reject w' atomicTransport r) ∧
  (∀ r, r ∈ i → holds marked_insecure w' r).
Proof.
  unfold StoreImageRegistryConf.
  destruct (Nat.ltb 0 (length a) && Nat.ltb 0 (length b)) eqn:Hguard; [discriminate|].
  assert (a = [] ∨ b = []) as Hab.
  { destruct a; [by left|]. destruct b; [by right|]. discriminate. }
  intros Hrun. split; [exact Hab|]. cbv zeta in Hrun.
  apply bind_Done in Hrun as (regs & w0 & _ & Hrun).
  apply bind_Done in Hrun as ([] & w1 & _ & Hrun).
  apply bind_Done in Hrun as (pc & w1' & _ & Hrun).
  apply bind_Done in Hrun as ([] & w2 & _ & Hrun).
  apply bind_Done in Hrun as ([] & w3 & Hloop_a & Hrun).
  apply bind_Done in Hrun as ([] & w4 & Hloop_b & Hrun).
  apply bind_Done in Hrun as ([] & w5 & Hloop_i & Hrun).
  apply bind_Done in Hrun as ([] & w6 & Hsend & Hrun).
  injection Hrun as <-.
  (* the allowed loop *)
  assert (∀ r, r ∈ a → holds marked_allowed w3 r) as HA.
  { refine (for_range_Done (λ done s, ∀ r, r ∈ done → holds marked_allowed s r)
              _ _ a [] _ _ _ Hloop_a).
    - intros done x s s' HI Hround r Hr.
      destruct (round_allowed _ _ _ Hround) as [Hx Hk].
      apply elem_of_app in Hr as [Hr|Hr]; [by apply Hk, HI|].
      by apply list_elem_of_singleton in Hr as ->.
    - by intros r Hr%elem_of_nil. }
  (* the blocked loop *)
  assert ((∀ r, r ∈ a → holds marked_allowed w4 r) ∧
          (∀ r, r ∈ b → holds marked_blocked w4 r ∧
                has_reject w4 dockerTransport r ∧ has_reject w4 atomicTransport r))
    as [HA4 HB].
  { destruct Hab as [->| ->].
    - split; [by intros r Hr%elem_of_nil|].
      refine (for_range_Done (λ done s, ∀ r, r ∈ done →
               holds marked_blocked s r ∧
               has_reject s dockerTransport r ∧ has_reject s atomicTransport r)
              _ _ b [] _ _ _ Hloop_b).
      + intros done x s s' HI Hround r Hr.
        destruct (round_blocked _ _ _ Hround) as (Hx & Hk & Hrej).
        apply elem_of_app in Hr as [Hr|Hr];
          [|by apply list_elem_of_singleton in Hr as ->].
        destruct (HI r Hr) as (? & ? & ?). split; [by apply Hk|]. split; by apply Hrej.
      + by intros r Hr%elem_of_nil.
    - injection Hloop_b as <-. split; [done|by intros r Hr%elem_of_nil]. }
  (* the insecure loop *)
  assert ((∀ r, r ∈ a → holds marked_allowed w5 r) ∧
          (∀ r, r ∈ b → holds marked_blocked w5 r ∧
                has_reject w5 dockerTransport r ∧ has_reject w5 atomicTransport r) ∧
          (∀ r, r ∈ i → holds marked_insecure w5 r))
    as (HA5 & HB5 & HI5).
  { refine (for_range_Done (λ done s,
           (∀ r, r ∈ a → holds marked_allowed s r) ∧
           (∀ r, r ∈ b → holds marked_blocked s r ∧
                 has_reject s dockerTransport r ∧ has_reject s atomicTransport r) ∧
           (∀ r, r ∈ done → holds marked_insecure s r))
              _ _ i [] _ _ _ Hloop_i).
    - intros done x s s' (HAs & HBs & HIs) Hround.
      destruct (round_insecure _ _ _ Hround) as (Hx & Hki & Hka & Hkb & Hrej).
      split; [|split].
      + intros r Hr. by apply Hka, HAs.
      + intros r Hr. destruct (HBs r Hr) as (? & ? & ?).
        split; [by apply Hkb|]. split; by apply Hrej.
      + intros r Hr.
        apply elem_of_app in Hr as [Hr|Hr]; [by apply Hki, HIs|].
        by apply list_elem_of_singleton in Hr as ->.
    - split; [done|]. split; [done|]. by intros r Hr%elem_of_nil. }
  (* the send *)
  destruct (send_step _ _ _ Hsend) as [He Hr].
  unfold holds, has_reject in *. setoid_rewrite He. setoid_rewrite Hr. done.
Qed.

Lemma StoreImageRegistryConf_marks_entries_witness :
  ∃ w',
    StoreImageRegistryConf [] ["docker.io"; "quay.io"] ["registry.local..5000"; "quay.io"]
                           indexed_world = Done None w' ∧
    (∀ r, r ∈ ["docker.io"; "quay.io"] →
          holds marked_blocked w' r ∧
          has_reject w' dockerTransport r ∧ has_reject w' atomicTransport r) ∧
    (∀ r, r ∈ ["registry.local..5000"; "quay.io"] → holds marked_insecure w' r).
Proof.
  eexists. split; [vm_compute; reflexivity|].
  refine (proj2 (proj2 (StoreImageRegistryConf_marks_entries
            [] ["docker.io"; "quay.io"] ["registry.local..5000"; "quay.io"]
            indexed_world _ _))).
  vm_compute. reflexivity.
Defined.

(** ** The persistence pass *)

Section Pass.
Context {fs : Type} (os : OS fs).

(** A step always returns, leaves the model alone, and issues only calls of
    its own. *)
Lemma exec_facts s st :
  ∃ r st' new,
    exec os s st = Done r st' ∧ model st' = model st ∧
    calls st' = calls st ++ new ∧ Forall (step_call s) new.
Proof.
  destruct s as [| | |t];
    unfold exec, registriesConf_writeToFile, policyConf_writeToFile, writeTomlFile,
      writeJSONFile, registryCertTuple_writeToFile, createBaseDir, bind, gets, sys, ret;
    cbn [model disk calls];
    repeat case_match; simplify_eq;
    eexists _, _, _; (split; [reflexivity|]); cbn [model disk calls];
    (split; [reflexivity|]); rewrite <- ?app_assoc;
    (split; [try reflexivity|]).
  all: try (instantiate (1 := []); by rewrite app_nil_r).
  all: repeat (apply Forall_cons; split); try apply Forall_nil.
  all: cbn [step_call io_path]; first [by left|by right|done].
Qed.

Lemma pass_facts steps st done r st' :
  pass os steps st done r st' →
  model st' = model st ∧
  (∃ skipped, steps = done ++ skipped ∧ (r = None → skipped = [])) ∧
  ∃ new, calls st' = calls st ++ new ∧
         Forall (λ c, ∃ s, s ∈ done ∧ step_call s c) new.
Proof.
  induction 1 as [st|s rest st e st1 He|s rest st st1 done r st' He _ IH].
  - split; [done|]. split; [by exists []|]. exists []. by rewrite app_nil_r.
  - destruct (exec_facts s st) as (r0 & st0 & new & E & Hm & Hc & Hall).
    rewrite He in E. injection E as <- <-.
    split; [done|]. split; [by exists rest|]. exists new. split; [done|].
    eapply Forall_impl; [exact Hall|]. intros c Hcall. exists s. split; [by left|done].
  - destruct (exec_facts s st) as (r0 & st0 & new & E & Hm & Hc & Hall).
    rewrite He in E. injection E as <- <-.
    destruct IH as (Hm' & (skipped & -> & Hnone) & new' & Hc' & Hall').
    split; [congruence|]. split; [by exists skipped|].
    exists (new ++ new'). split; [by rewrite Hc', Hc, app_assoc|].
    apply Forall_app. split.
    + eapply Forall_impl; [exact Hall|]. intros c Hcall. exists s. split; [by left|done].
    + eapply Forall_impl; [exact Hall'|]. intros c (s' & Hin & Hcall).
      exists s'. split; [by right|done].
Qed.

(** The loop over the certificate tuples stops at the first write that
    fails. *)
Lemma cert_loop_pass tuples st :
  ∃ done r st',
    for_range_err tuples (registryCertTuple_writeToFile os) st = Done r st' ∧
    pass os (map StepWriteCert tuples) st done r st'.
Proof.
  revert st. induction tuples as [|t tuples IH]; intros st.
  - exists [], None, st. split; [done|constructor].
  - destruct (exec_facts (StepWriteCert t) st) as (r & st1 & _ & E & _).
    cbn [for_range_err map]. unfold bind. cbn [exec] in E. rewrite E.
    destruct r as [e|].
    + exists [StepWriteCert t], (Some e), st1. split; [done|by constructor].
    + destruct (IH st1) as (done & r & st' & Hloop & Hpass).
      exists (StepWriteCert t :: done), r, st'. split; [done|].
      by eapply pass_next.
Qed.

Lemma sync_pass st :
  ∃ done r st', sync os st = Done r st' ∧ pass os (plan (model st)) st done r st'.
Proof.
  unfold sync, plan. cbn [app].
  destruct (exec_facts StepRegistries st) as (r1 & st1 & _ & E1 & M1 & _).
  pose proof E1 as E1'. cbn [exec] in E1'. unfold bind, gets in E1' |- *. rewrite E1'.
  destruct r1 as [e|].
  { exists [StepRegistries], (Some e), st1. split; [done|by constructor]. }
  destruct (exec_facts StepPolicy st1) as (r2 & st2 & _ & E2 & M2 & _).
  pose proof E2 as E2'. cbn [exec] in E2'. unfold bind, gets in E2'. rewrite E2'.
  destruct r2 as [e|].
  { exists [StepRegistries; StepPolicy], (Some e), st2. split; [done|].
    eapply pass_next; [exact E1|]. by constructor. }
  destruct (exec_facts StepRemoveCerts st2) as (r3 & st3 & _ & E3 & M3 & _).
  pose proof E3 as E3'. cbn [exec] in E3'. unfold bind, sys, ret in E3' |- *.
  injection E3' as Hr3 Hst3. rewrite Hst3.
  destruct (snd (os_RemoveAll os DockerCertsDir (disk st2))) as [e|]; cbn in Hr3; subst r3.
  { exists [StepRegistries; StepPolicy; StepRemoveCerts], (Some (ErrIO e)), st3.
    split; [done|].
    eapply pass_next; [exact E1|]. eapply pass_next; [exact E2|]. by constructor. }
  destruct (cert_loop_pass (registryCertTuples (syncer (model st))) st3)
    as (done & r & st' & Hloop & Hpass).
  exists (StepRegistries :: StepPolicy :: StepRemoveCerts :: done), r, st'.
  split.
  - rewrite <- Hloop. do 2 f_equal. congruence.
  - eapply pass_next; [exact E1|]. eapply pass_next; [exact E2|].
    eapply pass_next; [exact E3|]. exact Hpass.
Qed.

(** On a local system a step leaves the files it keeps as they were. *)
Lemma exec_keeps content s st r st' q :
  os_local os content →
  exec os s st = Done r st' → step_keeps s q →
  content (disk st') q = content (disk st) q.
Proof.
  intros Hl Hrun Hq. revert Hrun.
  destruct s as [| | |t];
    unfold exec, registriesConf_writeToFile, policyConf_writeToFile, writeTomlFile,
      writeJSONFile, registryCertTuple_writeToFile, createBaseDir, bind, gets, sys, ret;
    cbn [model disk calls step_keeps] in *;
    repeat case_match; intros; simplify_eq; cbn [model disk calls].
  all: rewrite ?(toml_Encode_local _ _ Hl), ?(json_Encode_local _ _ Hl),
         ?(WriteString_local _ _ Hl), ?(Create_local _ _ Hl),
         ?(MkdirAll_local _ _ Hl), ?(RemoveAll_local _ _ Hl) by done.
  all: reflexivity.
Qed.

Lemma pass_keeps content steps st done r st' q :
  os_local os content →
  pass os steps st done r st' →
  (∀ s, s ∈ done → step_keeps s q) →
  content (disk st') q = content (disk st) q.
Proof.
  intros Hl. induction 1 as [st|s rest st e st1 He|s rest st st1 done r st' He _ IH];
    intros Hq.
  - reflexivity.
  - eapply exec_keeps; [done..|]. apply Hq. by left.
  - rewrite IH by (intros s' Hs'; apply Hq; by right).
    eapply exec_keeps; [done..|]. apply Hq. by left.
Qed.

End Pass.

Lemma registries_step_paths c :
  step_call StepRegistries c →
  io_path c ≠ PolicyConfPath ∧ under DockerCertsDir (io_path c) = false.
Proof. intros [-> | ->]; by vm_compute. Qed.

Lemma policy_step_paths c :
  step_call StepPolicy c → under DockerCertsDir (io_path c) = false.
Proof. intros [-> | ->]; by vm_compute. Qed.

Lemma not_in_cert_steps s tuples :
  (∀ t, s ≠ StepWriteCert t) → s ∉ map StepWriteCert tuples.
Proof.
  intros Hs Hin. apply list_elem_of_In, in_map_iff in Hin as (t & <- & _).
  by apply (Hs t).
Qed.

(** The steps taken when the policy step, or the removal, is skipped. *)
Lemma taken_before_policy tuples done skipped s :
  StepRegistries :: StepPolicy :: StepRemoveCerts :: map StepWriteCert tuples
    = done ++ skipped →
  StepPolicy ∈ skipped → s ∈ done → s = StepRegistries.
Proof.
  intros Hplan Hskip Hin.
  destruct done as [|s1 [|s2 done]]; cbn [app] in Hplan.
  - by apply elem_of_nil in Hin.
  - injection Hplan as <- _. by apply list_elem_of_singleton in Hin.
  - injection Hplan as _ _ Hrest. exfalso.
    assert (StepPolicy ∈ StepRemoveCerts :: map StepWriteCert tuples) as Hp.
    { rewrite Hrest. apply elem_of_app. by right. }
    apply elem_of_cons in Hp as [?|Hp]; [done|].
    by apply not_in_cert_steps in Hp.
Qed.

Lemma taken_before_removal tuples done skipped s :
  StepRegistries :: StepPolicy :: StepRemoveCerts :: map StepWriteCert tuples
    = done ++ skipped →
  StepRemoveCerts ∈ skipped → s ∈ done → s = StepRegistries ∨ s = StepPolicy.
Proof.
  intros Hplan Hskip Hin.
  destruct done as [|s1 [|s2 [|s3 done]]]; cbn [app] in Hplan.
  - by apply elem_of_nil in Hin.
  - injection Hplan as <- _. left. by apply list_elem_of_singleton in Hin.
  - injection Hplan as <- <- _.
    apply elem_of_cons in Hin as [->|Hin]; [by left|].
    right. by apply list_elem_of_singleton in Hin.
  - injection Hplan as _ _ _ Hrest. exfalso.
    assert (StepRemoveCerts ∈ map StepWriteCert tuples) as Hp.
    { rewrite Hrest. apply elem_of_app. by right. }
    by apply not_in_cert_steps in Hp.
Qed.

(** C7, amended.  A persistence pass takes the steps of its plan (the
    registries file, the policy file, the removal of the certificate
    directory, then one certificate write per tuple, in snapshot order) in
    that order and stops at the first that fails: the steps taken are a
    prefix of the plan, ending with the failed step if there is one, the
    state returned is the one that step left, every filesystem call
    issued belongs to a step taken, and the model is unchanged.  So when
    the policy step is skipped no call touched the policy file or the
    certificate directory, and when the removal is skipped no call touched
    the certificate directory.  On an operating system whose calls are
    local, every file that no step taken targets is exactly as it was
    before the pass: the policy file when the policy step is skipped, and
    every file of the certificate directory when the removal is skipped.
    Nothing is said of a file a step taken targets, such as a certificate
    whose write is skipped after the removal was taken. *)
Theorem sync_stops_at_first_failure {fs} (os : OS fs) (st : io_state fs) :
  ∃ done skipped r st' new,
    sync os st = Done r st' ∧
    plan (model st) = done ++ skipped ∧ (r = None → skipped = []) ∧
    pass os (plan (model st)) st done r st' ∧
    model st' = model st ∧
    calls st' = calls st ++ new ∧
    Forall (λ c, ∃ s, s ∈ done ∧ step_call s c) new ∧
    (StepPolicy ∈ skipped →
       Forall (λ c, io_path c ≠ PolicyConfPath ∧
                    under DockerCertsDir (io_path c) = false) new) ∧
    (StepRemoveCerts ∈ skipped →
       Forall (λ c, under DockerCertsDir (io_path c) = false) new) ∧
    (∀ content, os_local os content →
       (∀ q, (∀ s, s ∈ done → step_keeps s q) →
             content (disk st') q = content (disk st) q) ∧
       (StepPolicy ∈ skipped →
          content (disk st') PolicyConfPath = content (disk st) PolicyConfPath) ∧
       (StepRemoveCerts ∈ skipped →
          ∀ q, under DockerCertsDir q = true →
               content (disk st') q = content (disk st) q)).
Proof.
  destruct (sync_pass os st) as (done & r & st' & Hsync & Hpass).
  destruct (pass_facts os _ _ _ _ _ Hpass)
    as (Hm & (skipped & Hplan & Hnone) & new & Hc & Hall).
  exists done, skipped, r, st', new.
  do 7 (split; [done|]).
  unfold plan in Hplan. cbn [app] in Hplan.
  split; [|split].
  - intros Hskip. eapply Forall_impl; [exact Hall|].
    intros c (s & Hin & Hcall).
    rewrite (taken_before_policy _ _ _ _ Hplan Hskip Hin) in Hcall.
    by apply registries_step_paths.
  - intros Hskip. eapply Forall_impl; [exact Hall|].
    intros c (s & Hin & Hcall).
    destruct (taken_before_removal _ _ _ _ Hplan Hskip Hin) as [-> | ->].
    + by apply registries_step_paths.
    + by apply policy_step_paths.
  - intros content Hl. split; [|split].
    + intros q Hq. by eapply pass_keeps.
    + intros Hskip. eapply pass_keeps; [done..|].
      intros s Hin. by rewrite (taken_before_policy _ _ _ _ Hplan Hskip Hin).
    + intros Hskip q Hq. eapply pass_keeps; [done..|].
      intros s Hin.
      destruct (taken_before_removal _ _ _ _ Hplan Hskip Hin) as [-> | ->];
        cbn [step_keeps]; intros ->; by vm_compute in Hq.
Qed.

(** The small filesystem is local, and two passes on it: one that fails
    at the policy file and leaves the old policy and the old certificate
    in place, one that goes through and replaces the certificate tree. *)
Lemma files_os_local deny : os_local (files_os deny) (λ d q, d !! q).
Proof.
  split; cbn [files_os os_MkdirAll os_Create file_WriteString toml_Encode json_Encode
              os_RemoveAll fst].
  - done.
  - intros p d q Hq. case_bool_decide; cbn [fst]; [done|by rewrite lookup_insert_ne].
  - intros p data d q Hq. by rewrite lookup_insert_ne.
  - intros p rsc h d q Hq. by rewrite lookup_insert_ne.
  - intros p pc h d q Hq. by rewrite lookup_insert_ne.
  - intros p d q Hq. destruct (d !! q) as [v|] eqn:E.
    + by apply map_lookup_filter_Some.
    + apply map_lookup_filter_None. by left.
Qed.

Example pass_fails_at_policy :
  let w := mkWorld (set_registryCertTuples [mkRegistryCertTuple "quay.io..8443" "PEM"]
                                           (syncer fresh_world)) (mem fresh_world) in
  let d := <[PolicyConfPath := "old policy"]>
             (<["/tmp/docker/certs.d/docker.io/ca.crt" := "old cert"]> ∅) in
  sync (files_os [PolicyConfPath]) (mkIO w d []) =
    Done (Some (ErrIO "permission denied"))
         (mkIO w (<[RegistriesConfPath := "unqualified-search-registries = [...]"]> d)
               [CallCreate RegistriesConfPath; CallEncode RegistriesConfPath;
                CallCreate PolicyConfPath]).
Proof. vm_compute. reflexivity. Qed.

Example pass_goes_through :
  let w := mkWorld (set_registryCertTuples [mkRegistryCertTuple "quay.io..8443" "PEM"]
                                           (syncer fresh_world)) (mem fresh_world) in
  let d := <[PolicyConfPath := "old policy"]>
             (<["/tmp/docker/certs.d/docker.io/ca.crt" := "old cert"]> ∅) in
  sync (files_os []) (mkIO w d []) =
    Done None
         (mkIO w (<["/tmp/docker/certs.d/quay.io:8443/ca.crt" := "PEM"]>
                    (<[PolicyConfPath := "{...}"]>
                       (<[RegistriesConfPath := "unqualified-search-registries = [...]"]> ∅)))
               [CallCreate RegistriesConfPath; CallEncode RegistriesConfPath;
                CallCreate PolicyConfPath; CallEncode PolicyConfPath;
                CallRemoveAll DockerCertsDir;
                CallMkdirAll "/tmp/docker/certs.d/quay.io:8443";
                CallCreate "/tmp/docker/certs.d/quay.io:8443/ca.crt";
                CallWriteString "/tmp/docker/certs.d/quay.io:8443/ca.crt" "PEM"]).
Proof. vm_compute. reflexivity. Qed.

(** C7, as stated, fails: a step that is skipped can find its artifact
    changed by a step that was taken.  Here the plan ends with the
    certificate writes for "quay.io" and for "docker.io"; the removal of
    the certificate directory succeeds and the certificate of "quay.io"
    cannot be created, so the pass stops there with the write for
    "docker.io" skipped (no call names its file), and the certificate
    "docker.io" had before the pass is gone.  The system's calls are
    local. *)
Lemma sync_skipped_write_loses_certificate :
  os_local (files_os ["/tmp/docker/certs.d/quay.io/ca.crt"]) (λ d q, d !! q) ∧
  plan (mkWorld (set_registryCertTuples [mkRegistryCertTuple "quay.io" "PEM 1";
                                         mkRegistryCertTuple "docker.io" "PEM 2"]
                                        (syncer fresh_world)) (mem fresh_world))
    = [StepRegistries; StepPolicy; StepRemoveCerts;
       StepWriteCert (mkRegistryCertTuple "quay.io" "PEM 1")]
      ++ [StepWriteCert (mkRegistryCertTuple "docker.io" "PEM 2")] ∧
  sync (files_os ["/tmp/docker/certs.d/quay.io/ca.crt"])
       (mkIO (mkWorld (set_registryCertTuples [mkRegistryCertTuple "quay.io" "PEM 1";
                                               mkRegistryCertTuple "docker.io" "PEM 2"]
                                              (syncer fresh_world)) (mem fresh_world))
             (<["/tmp/docker/certs.d/docker.io/ca.crt" := "old certificate"]> ∅) [])
    = Done (Some (ErrIO "permission denied"))
           (mkIO (mkWorld (set_registryCertTuples [mkRegistryCertTuple "quay.io" "PEM 1";
                                                   mkRegistryCertTuple "docker.io" "PEM 2"]
                                                  (syncer fresh_world)) (mem fresh_world))
                 (<[PolicyConfPath := "{...}"]>
                    (<[RegistriesConfPath := "unqualified-search-registries = [...]"]> ∅))
                 [CallMkdirAll "/tmp/containers";
                  CallCreate RegistriesConfPath; CallEncode RegistriesConfPath;
                  CallCreate PolicyConfPath; CallEncode PolicyConfPath;
                  CallRemoveAll DockerCertsDir;
                  CallMkdirAll "/tmp/docker/certs.d/quay.io";
                  CallCreate "/tmp/docker/certs.d/quay.io/ca.crt"]) ∧
  (<["/tmp/docker/certs.d/docker.io/ca.crt" := "old certificate"]> ∅ : gmap string string)
    !! "/tmp/docker/certs.d/docker.io/ca.crt" = Some "old certificate" ∧
  (<[PolicyConfPath := "{...}"]>
     (<[RegistriesConfPath := "unqualified-search-registries = [...]"]> ∅)
   : gmap string string) !! "/tmp/docker/certs.d/docker.io/ca.crt" = None.
Proof.
  split; [apply files_os_local|]. split; [reflexivity|].
  split; [vm_compute; reflexivity|]. split; reflexivity.
Qed.

(** ** When creation goes through

    What holds of SetMirrors whenever it returns, which takes an index
    that is not nil. *)

Lemma UpdateRegistryMirroringConfig_replaces_mirrors r m w w' :
  UpdateRegistryMirroringConfig r m w = Done None w' →
  ∃ v, entry w' r = Some v ∧ Mirrors v = m.
Proof.
  unfold UpdateRegistryMirroringConfig. intros Hrun. inv_run.
  repeat match goal with u : unit |- _ => destruct u end.
  match goal with
  | Hc : lift (getRegistryConfOrCreate _ _) _ = _,
    H1 : lift (assign_through _ _) _ = _, Hs : send _ = _ |- _ =>
    destruct (create_assign _ _ _ _ _ _ Hc H1) as (_ & (v & Hv) & _);
    destruct (send_step _ _ _ Hs) as [He _]
  end.
  exists (set_Mirrors m v). by rewrite He.
Qed.

Lemma ClearMirrors_after_SetMirrors r m w w1 :
  UpdateRegistryMirroringConfig r m w = Done None w1 →
  ∃ w2 v, DeleteRegistryMirroringConfig r w1 = Done None w2 ∧
          entry w2 r = Some v ∧ Mirrors v = [].
Proof.
  intros (v & Hv & _)%UpdateRegistryMirroringConfig_replaces_mirrors.
  destruct (DeleteRegistryMirroringConfig_known _ _ _ Hv) as (w2 & Hrun & He & _).
  by exists w2, (set_Mirrors [] v).
Qed.

(** On a model with an allocated index the value receivers show: the
    entry SetMirrors creates is stored in the index and not appended to
    the sequence, and the rule lists are not reset by a later
    SetRegistryPolicy.  No state the operations reach from the fresh model
    has such an index. *)
Example created_entry_misses_sequence :
  ∃ w', UpdateRegistryMirroringConfig "docker.io" ["mirror.example.com"] indexed_world
          = Done None w' ∧
        (∃ v, entry w' "docker.io" = Some v ∧ Mirrors v = ["mirror.example.com"]) ∧
        sequence_of w' = [].
Proof.
  eexists. split; [vm_compute; reflexivity|]. split; [|reflexivity].
  eexists. split; reflexivity.
Qed.

Example reject_rule_survives_reset :
  ∃ w1 w2,
    StoreImageRegistryConf [] ["docker.io"] [] indexed_world = Done None w1 ∧
    StoreImageRegistryConf ["docker.io"] [] [] w1 = Done None w2 ∧
    holds marked_allowed w2 "docker.io" ∧
    rules_on w2 dockerTransport "docker.io" = [rejectPolicyEntry].
Proof.
  eexists _, _. split; [vm_compute; reflexivity|]. split; [vm_compute; reflexivity|].
  split; [|reflexivity]. eexists. split; [reflexivity|]. by split.
Qed.

(** * Further properties of the code *)

(** ** Invariants of every call, however it ends *)

Section Stable.
Context {S : Type} (I : S → Prop).

Lemma stable_ret {A} (a : A) : triple I (ret a) (λ _, I) I.
Proof. by intros s H. Qed.

Lemma stable_gets {A} (f : S → A) : triple I (gets f) (λ _, I) I.
Proof. by intros s H. Qed.

Lemma stable_bind {A B} (c : M S A) (k : A → M S B) :
  triple I c (λ _, I) I → (∀ a, triple I (k a) (λ _, I) I) →
  triple I (bind c k) (λ _, I) I.
Proof. intros Hc Hk. eapply triple_bind; [exact Hc|exact Hk]. Qed.

Lemma stable_for_range {A} (body : A → M S unit) l :
  (∀ x, triple I (body x) (λ _, I) I) → triple I (for_range l body) (λ _, I) I.
Proof. intros Hb. apply triple_for_range. intros x _. apply Hb. Qed.

Lemma stable_after {A} (c : M S A) s :
  triple I c (λ _, I) I → I s → I (after (c s)).
Proof. intros Hc Hs. specialize (Hc s Hs). by destruct (c s). Qed.

End Stable.

(** Steps through a computation built from [bind], loops and branches,
    leaving the goals for its leaves. *)
Ltac stable_steps :=
  repeat first
    [ apply stable_ret
    | apply stable_gets
    | apply stable_bind; [|intros ?]
    | apply stable_for_range; intros ?
    | match goal with
      | |- triple _ (match ?x with _ => _ end) _ _ => destruct x
      | |- triple _ (if ?b then _ else _) _ _ => destruct b
      end ].

Lemma configuration_lift {A} x (c : M heap A) :
  triple (λ w, configuration w = x) (lift c) (λ _ w, configuration w = x)
         (λ w, configuration w = x).
Proof. intros [sy h] H. unfold lift. cbn [mem syncer]. by destruct (c h). Qed.

Lemma configuration_send x :
  triple (λ w, configuration w = x) send (λ _ w, configuration w = x)
         (λ w, configuration w = x).
Proof. by intros [sy h] H. Qed.

Lemma configuration_run x c :
  triple (λ w, configuration w = x) (run c) (λ _ w, configuration w = x)
         (λ w, configuration w = x).
Proof.
  destruct c as [a b i|t|r m|r|]; cbn [run];
    unfold StoreImageRegistryConf, StoreRegistryCerts, UpdateRegistryMirroringConfig,
      DeleteRegistryMirroringConfig, CleanupRegistryMirroringConfig;
    stable_steps;
    try apply configuration_lift; try apply configuration_send;
    by intros [sy h] H.
Qed.

(** X1. No mutation, whether it returns or panics, changes which entries
    the Registries sequence lists or which maps the model refers to: the
    registries and policy records of the synchronizer are the same after
    the call.  In particular the sequence never grows and resetTransports
    never installs a new transports map.  The certificate tuples change
    only through ReplaceCertificates. *)
Theorem mutations_keep_configuration c w :
  configuration (after (run c w)) = configuration w ∧
  sequence_of (after (run c w)) = sequence_of w ∧
  Transports (policyConfContent (syncer (after (run c w))))
    = Transports (policyConfContent (syncer w)) ∧
  ((∀ t, c ≠ ReplaceCertificates t) →
   registryCertTuples (syncer (after (run c w))) = registryCertTuples (syncer w)).
Proof.
  assert (configuration (after (run c w)) = configuration w) as Hc.
  { apply (stable_after (λ w', configuration w' = configuration w));
      [apply configuration_run|done]. }
  split; [exact Hc|]. injection Hc as Hr Hp.
  split; [unfold sequence_of; by rewrite Hr|]. split; [by rewrite Hp|].
  intros Hne.
  apply (stable_after
           (λ w', registryCertTuples (syncer w') = registryCertTuples (syncer w)));
    [|done].
  assert (∀ A (k : M heap A),
            triple (λ w', registryCertTuples (syncer w') = registryCertTuples (syncer w))
                   (lift k) (λ _ w', registryCertTuples (syncer w')
                                     = registryCertTuples (syncer w))
                   (λ w', registryCertTuples (syncer w') = registryCertTuples (syncer w)))
    as Hlift.
  { intros A k [sy h] H. unfold lift. cbn [mem syncer]. by destruct (k h). }
  destruct c as [a b i|t|r m|r|]; cbn [run];
    unfold StoreImageRegistryConf, UpdateRegistryMirroringConfig,
      DeleteRegistryMirroringConfig, CleanupRegistryMirroringConfig;
    [|by destruct (Hne t)|..];
    stable_steps; try apply Hlift; by intros [sy h] H.
Qed.

(** ** Reject rules are never removed *)

Lemma tmaps_mono_refl h h' : tmaps h' = tmaps h → tmaps_mono h h'.
Proof. intros E k t Hk. exists t. by rewrite E. Qed.

Lemma tmaps_mono_trans h1 h2 h3 : tmaps_mono h1 h2 → tmaps_mono h2 h3 → tmaps_mono h1 h3.
Proof.
  intros H12 H23 k t Hk. destruct (H12 k t Hk) as (t2 & Hk2 & Hr2).
  destruct (H23 k t2 Hk2) as (t3 & Hk3 & Hr3). exists t3. split; [done|].
  intros transport r Hr. by apply Hr3, Hr2.
Qed.

Lemma assign_through_tmaps p f h : tmaps (after (assign_through p f h)) = tmaps h.
Proof. unfold assign_through. by destruct (objs h !! p). Qed.

Lemma rmap_index_same m k h : after (rmap_index m k h) = h.
Proof. unfold rmap_index. destruct m as [r|]; [|done]. by destruct (rmaps h !! r). Qed.

Lemma getRegistryConfOrCreate_tmaps rsc r h :
  tmaps (after (getRegistryConfOrCreate rsc r h)) = tmaps h.
Proof.
  unfold getRegistryConfOrCreate, bind, rmap_index, rmap_assign, new_registryConf, ret.
  destruct (registriesMap rsc) as [m|]; [|done].
  destruct (rmaps h !! m) as [t|] eqn:Hm; [|done].
  destruct (t !! r); [done|]. cbn [rmaps set_objs]. by rewrite Hm.
Qed.

Lemma resetTransports_mono pc h : tmaps_mono h (after (resetTransports pc h)).
Proof.
  intros k t Hk. exists t. split; [|done]. cbn.
  rewrite lookup_app_l; [done|]. by eapply lookup_lt_Some.
Qed.

Lemma tmap_assign_mono m transport r h :
  tmaps_mono h (after (tmap_assign m transport r [rejectPolicyEntry] h)).
Proof.
  unfold tmap_assign. destruct m as [k0|]; [|by apply tmaps_mono_refl].
  destruct (tmaps h !! k0) as [t0|] eqn:H0; [|by apply tmaps_mono_refl].
  destruct (t0 !! transport) as [inner|] eqn:Hi; [|by apply tmaps_mono_refl].
  intros k t Hk. cbn [after tmaps set_tmaps].
  destruct (decide (k = k0)) as [->|Hne].
  - rewrite list_lookup_insert_eq by by eapply lookup_lt_Some.
    eexists. split; [done|]. intros transport' r' Hr.
    rewrite (rules_in_insert _ _ _ _ _ _ _ Hi). rewrite H0 in Hk. injection Hk as <-.
    case_decide; [apply list_elem_of_here|done].
  - rewrite list_lookup_insert_ne by done. by exists t.
Qed.

Lemma setRejectForRegistry_mono pc r h :
  tmaps_mono h (after (setRejectForRegistry pc r h)).
Proof.
  unfold setRejectForRegistry, setRejectForRegistryOnTransport, bind.
  pose proof (tmap_assign_mono (Transports pc) dockerTransport r h) as H1.
  destruct (tmap_assign (Transports pc) dockerTransport r [rejectPolicyEntry] h)
    as [[] h1|msg h1]; [|exact H1].
  eapply tmaps_mono_trans; [exact H1|]. apply tmap_assign_mono.
Qed.

Lemma no_reject_in_empty transport r Q :
  rejectPolicyEntry ∈ rules_in ∅ transport r → Q.
Proof. unfold rules_in. rewrite lookup_empty. by intros ?%elem_of_nil. Qed.

Lemma has_reject_lift {A} transport r (c : M heap A) :
  (∀ h, tmaps_mono h (after (c h))) →
  triple (λ w, has_reject w transport r) (lift c)
         (λ _ w, has_reject w transport r) (λ w, has_reject w transport r).
Proof.
  intros Hmono [sy h] Hr. specialize (Hmono h).
  assert (has_reject (mkWorld sy (after (c h))) transport r) as Hafter.
  { revert Hr. unfold has_reject, rules_on, transports_of. cbn [mem syncer].
    destruct (Transports (policyConfContent sy)) as [k|];
      [|apply no_reject_in_empty].
    destruct (tmaps h !! k) as [t|] eqn:Hk; [|apply no_reject_in_empty].
    destruct (Hmono k t Hk) as (t' & -> & Hrules). cbn. apply Hrules. }
  unfold lift. cbn [mem syncer]. by destruct (c h).
Qed.

Lemma has_reject_run transport r c :
  triple (λ w, has_reject w transport r) (run c)
         (λ _ w, has_reject w transport r) (λ w, has_reject w transport r).
Proof.
  destruct c as [a b i|t|x m|x|]; cbn [run];
    unfold StoreImageRegistryConf, StoreRegistryCerts, UpdateRegistryMirroringConfig,
      DeleteRegistryMirroringConfig, CleanupRegistryMirroringConfig, getRegistryConf;
    stable_steps;
    try (apply has_reject_lift; intros h;
         first [ apply tmaps_mono_refl, assign_through_tmaps
               | apply tmaps_mono_refl, getRegistryConfOrCreate_tmaps
               | apply tmaps_mono_refl; by rewrite rmap_index_same
               | apply resetTransports_mono
               | apply setRejectForRegistry_mono ]);
    by intros [sy h] H.
Qed.

(** X2. No mutation ever removes a reject rule: a registry that has a
    reject rule on a transport before a call still has it after the call,
    whether the call returns or panics.  In particular a SetRegistryPolicy
    call that no longer lists a registry as blocked leaves its reject
    rules in place. *)
Theorem mutations_keep_reject_rules c w transport r :
  has_reject w transport r → has_reject (after (run c w)) transport r.
Proof.
  intros Hr.
  apply (stable_after (λ w', has_reject w' transport r)); [|exact Hr].
  apply has_reject_run.
Qed.

Lemma mutations_keep_reject_rules_witness :
  has_reject (after (run (SetRegistryPolicy ["docker.io"] [] []) blocked_world))
             atomicTransport "docker.io".
Proof.
  apply (mutations_keep_reject_rules (SetRegistryPolicy ["docker.io"] [] []) blocked_world).
  unfold has_reject.
  replace (rules_on blocked_world atomicTransport "docker.io") with [rejectPolicyEntry]
    by (vm_compute; reflexivity).
  apply list_elem_of_here.
Defined.

(** ** The location index *)

(** X3. Looking an entry up after getRegistryConfOrCreate returned finds
    the entry it returned, a second getRegistryConfOrCreate returns the
    same entry without touching the heap, and the call changed neither
    an existing object nor what the index holds for any other location. *)
Theorem getRegistryConfOrCreate_then_lookup rsc r h p h1 :
  getRegistryConfOrCreate rsc r h = Done p h1 →
  getRegistryConf rsc r h1 = Done (Some p) h1 ∧
  getRegistryConfOrCreate rsc r h1 = Done p h1 ∧
  (∀ k x, k ≠ r → getRegistryConf rsc k h = Done x h →
          getRegistryConf rsc k h1 = Done x h1) ∧
  (∀ q v, objs h !! q = Some v → objs h1 !! q = Some v).
Proof.
  unfold getRegistryConfOrCreate, getRegistryConf, bind, rmap_index, rmap_assign,
    new_registryConf, ret.
  destruct (registriesMap rsc) as [m|]; [|discriminate].
  destruct (rmaps h !! m) as [t|] eqn:Hm; [|discriminate].
  destruct (t !! r) as [q0|] eqn:Hr.
  - intros [= <- <-]. rewrite Hm, Hr. repeat split; auto.
  - cbn [rmaps objs set_objs]. rewrite Hm. intros [= <- <-].
    cbn [rmaps objs set_rmaps set_objs].
    rewrite list_lookup_insert_eq by by eapply lookup_lt_Some.
    rewrite lookup_insert_eq. repeat split.
    + intros k x Hk. rewrite lookup_insert_ne by done. by intros [= <-].
    + intros q v Hq. rewrite lookup_app_l; [done|]. by eapply lookup_lt_Some.
Qed.

Lemma getRegistryConfOrCreate_then_lookup_witness :
  ∃ p h1,
    getRegistryConfOrCreate (mkRegistriesConf [] "" [] (Some 0)) "quay.io"
                            (mkHeap [] [∅] []) = Done p h1 ∧
    getRegistryConf (mkRegistriesConf [] "" [] (Some 0)) "quay.io" h1 = Done (Some p) h1.
Proof.
  eexists _, _. split; [vm_compute; reflexivity|].
  refine (proj1 (getRegistryConfOrCreate_then_lookup
                   (mkRegistriesConf [] "" [] (Some 0)) "quay.io" (mkHeap [] [∅] []) _ _ _)).
  vm_compute. reflexivity.
Defined.

(** ** Reject rules *)

Lemma docker_atomic_differ : dockerTransport ≠ atomicTransport.
Proof. discriminate. Qed.

(** X4. On a policy whose transports map has the docker and the atomic
    transport, setRejectForRegistry returns; afterwards the rule list of
    the registry on these two transports is exactly the one reject rule,
    whatever it was, every other rule list (the docker-daemon transport,
    other registries) is as before, the registry entries are untouched,
    and a second call changes nothing. *)
Theorem setRejectForRegistry_sets_exactly pc r h k t :
  Transports pc = Some k → tmaps h !! k = Some t →
  is_Some (t !! dockerTransport) → is_Some (t !! atomicTransport) →
  ∃ h' t',
    setRejectForRegistry pc r h = Done tt h' ∧
    objs h' = objs h ∧ rmaps h' = rmaps h ∧
    tmaps h' !! k = Some t' ∧
    (∀ transport x,
        rules_in t' transport x =
          if decide ((transport = dockerTransport ∨ transport = atomicTransport) ∧ x = r)
          then [rejectPolicyEntry] else rules_in t transport x) ∧
    setRejectForRegistry pc r h' = Done tt h'.
Proof.
  intros Hpc Hk [d Hd] [a Ha].
  set (t1 := <[dockerTransport := <[r := [rejectPolicyEntry]]> d]> t).
  set (t2 := <[atomicTransport := <[r := [rejectPolicyEntry]]> a]> t1).
  assert (k < length (tmaps h)) as Hlen by by eapply lookup_lt_Some.
  assert (t1 !! atomicTransport = Some a) as Ha1.
  { unfold t1. by rewrite lookup_insert_ne by apply docker_atomic_differ. }
  exists (set_tmaps (<[k := t2]> (tmaps h)) h), t2.
  assert (setRejectForRegistry pc r h = Done tt (set_tmaps (<[k := t2]> (tmaps h)) h))
    as Hrun.
  { unfold setRejectForRegistry, setRejectForRegistryOnTransport, bind, tmap_assign.
    rewrite Hpc, Hk, Hd. cbn [tmaps set_tmaps].
    rewrite list_lookup_insert_eq by done. fold t1. rewrite Ha1.
    unfold set_tmaps at 1. cbn [objs rmaps tmaps].
    by rewrite list_insert_insert_eq. }
  split; [exact Hrun|]. split; [done|]. split; [done|].
  split; [cbn; by apply list_lookup_insert_eq|]. split.
  - intros transport x. unfold t2.
    rewrite (rules_in_insert _ _ _ _ _ _ _ Ha1). unfold t1.
    rewrite (rules_in_insert _ _ _ _ _ _ _ Hd).
    repeat case_decide; try done; exfalso; tauto.
  - unfold setRejectForRegistry, setRejectForRegistryOnTransport, bind, tmap_assign.
    rewrite Hpc. cbn [tmaps set_tmaps].
    rewrite list_lookup_insert_eq by done.
    assert (t2 !! dockerTransport = Some (<[r := [rejectPolicyEntry]]> d)) as Hd2.
    { unfold t2, t1. rewrite lookup_insert_ne by (intros E; by apply docker_atomic_differ).
      by rewrite lookup_insert_eq. }
    rewrite Hd2. cbn [tmaps set_tmaps].
    rewrite insert_insert_eq. rewrite (insert_id t2 dockerTransport) by done.
    rewrite list_insert_insert_eq, list_lookup_insert_eq by done.
    assert (t2 !! atomicTransport = Some (<[r := [rejectPolicyEntry]]> a)) as Ha2.
    { unfold t2. by rewrite lookup_insert_eq. }
    rewrite Ha2. rewrite insert_insert_eq. rewrite (insert_id t2 atomicTransport) by done.
    unfold set_tmaps. cbn [objs rmaps tmaps]. by rewrite list_insert_insert_eq.
Qed.

Lemma setRejectForRegistry_sets_exactly_witness :
  ∃ h' t',
    setRejectForRegistry (policyConfContent (syncer fresh_world)) "docker.io"
                         (mem fresh_world) = Done tt h' ∧
    tmaps h' !! 0 = Some t' ∧
    rules_in t' dockerTransport "docker.io" = [rejectPolicyEntry] ∧
    rules_in t' dockerDaemonTransport "" = [insecureAcceptAnythingPolicyEntry].
Proof.
  destruct (setRejectForRegistry_sets_exactly
              (policyConfContent (syncer fresh_world)) "docker.io" (mem fresh_world)
              0 defaultTransports_value eq_refl eq_refl
              (ex_intro _ ∅ default_docker) (ex_intro _ ∅ default_atomic))
    as (h' & t' & Hrun & _ & _ & Ht & Hrules & _).
  exists h', t'. split; [exact Hrun|]. split; [exact Ht|].
  split; rewrite Hrules; reflexivity.
Defined.

(** ** Mirrors *)

(** X5. A ClearMirrors call that returns an error returns the not-found
    error for its registry, on a model that is unchanged (no signal is
    posted) and whose index has no entry for the registry.  One that
    returns success found an entry in the index, replaced that entry's
    mirror list by the empty one, leaving its location, prefix and marks
    and every other object as they were, and posted one signal; the
    index, the sequence, the policy and the certificates are unchanged. *)
Theorem DeleteRegistryMirroringConfig_outcomes r w e w' :
  DeleteRegistryMirroringConfig r w = Done e w' →
  match e with
  | Some err => err = ErrRegistryNotFound r ∧ w' = w ∧ index_of w !! r = None
  | None =>
    ∃ p v, index_of w !! r = Some p ∧ objs (mem w) !! p = Some v ∧
           objs (mem w') = <[p := set_Mirrors [] v]> (objs (mem w)) ∧
           rmaps (mem w') = rmaps (mem w) ∧ tmaps (mem w') = tmaps (mem w) ∧
           configuration w' = configuration w ∧
           registryCertTuples (syncer w') = registryCertTuples (syncer w) ∧
           ch (syncer w') = S (ch (syncer w))
  end.
Proof.
  destruct w as [sy h].
  unfold DeleteRegistryMirroringConfig, bind, gets, lift, getRegistryConf, rmap_index.
  cbn [mem syncer].
  destruct (registriesMap (registriesConfContent sy)) as [m|] eqn:Em.
  - destruct (rmaps h !! m) as [t|] eqn:Hm; [|discriminate].
    assert (index_of (mkWorld sy h) = t) as Hidx.
    { unfold index_of. cbn [mem syncer]. by rewrite Em, Hm. }
    rewrite Hidx. destruct (t !! r) as [p|] eqn:Hr.
    + unfold assign_through, send, modify, ret. cbn [mem syncer].
      destruct (objs h !! p) as [v|] eqn:Hv; [|discriminate].
      intros [= <- <-]. exists p, v. by repeat split.
    + intros [= <- <-]. by repeat split.
  - assert (index_of (mkWorld sy h) = ∅) as Hidx.
    { unfold index_of. cbn [mem syncer]. by rewrite Em. }
    rewrite Hidx. intros [= <- <-]. by repeat split.
Qed.

Lemma DeleteRegistryMirroringConfig_outcomes_witness :
  ∃ w', DeleteRegistryMirroringConfig "quay.io" mirrored_world = Done None w' ∧
        ∃ p v, index_of mirrored_world !! "quay.io" = Some p ∧
               objs (mem mirrored_world) !! p = Some v ∧
               objs (mem w') = <[p := set_Mirrors [] v]> (objs (mem mirrored_world)).
Proof.
  eexists. split; [vm_compute; reflexivity|].
  destruct (DeleteRegistryMirroringConfig_outcomes "quay.io" mirrored_world None _
              ltac:(vm_compute; reflexivity)) as (p & v & Hp & Hv & Ho & _).
  by exists p, v.
Defined.

Lemma getRegistryConfOrCreate_outcomes rsc r h p h1 :
  getRegistryConfOrCreate rsc r h = Done p h1 →
  ∃ k t, registriesMap rsc = Some k ∧ rmaps h !! k = Some t ∧
    ((t !! r = Some p ∧ h1 = h) ∨
     (t !! r = None ∧ p = length (objs h) ∧
      h1 = set_rmaps (<[k := <[r := length (objs h)]> t]> (rmaps h))
             (set_objs (objs h ++ [mkRegistryConf r "" [] None None None]) h))).
Proof.
  unfold getRegistryConfOrCreate, bind, rmap_index, rmap_assign, new_registryConf, ret.
  destruct (registriesMap rsc) as [m|]; [|discriminate].
  destruct (rmaps h !! m) as [t|] eqn:Hm; [|discriminate].
  exists m, t. split; [done|]. split; [done|].
  destruct (t !! r) as [q0|] eqn:Hr.
  - left. by injection H as <- <-.
  - right. cbn [rmaps objs set_objs] in H. rewrite Hm in H. by injection H as <- <-.
Qed.

Lemma insert_at_end {A} (l : list A) (x y : A) : <[length l := y]> (l ++ [x]) = l ++ [y].
Proof. induction l as [|a l IH]; [done|]. cbn. f_equal. exact IH. Qed.

(** X6. A SetMirrors call that returns never returns an error and posts
    one signal.  If the index already had an entry for the registry, only
    that entry's mirror list changed: its location, prefix and marks, the
    index and every other object are as before.  If not, the index gained
    exactly this registry, pointing to a new object with the location,
    the given mirrors and no mark, while every object that existed is
    untouched.  Either way the sequence, the policy and the certificates
    are unchanged. *)
Theorem UpdateRegistryMirroringConfig_outcomes r m w e w' :
  UpdateRegistryMirroringConfig r m w = Done e w' →
  e = None ∧
  ((∃ p v, index_of w !! r = Some p ∧ objs (mem w) !! p = Some v ∧
           objs (mem w') = <[p := set_Mirrors m v]> (objs (mem w)) ∧
           index_of w' = index_of w) ∨
   (index_of w !! r = None ∧
    index_of w' = <[r := length (objs (mem w))]> (index_of w) ∧
    objs (mem w') = objs (mem w) ++ [mkRegistryConf r "" m None None None])) ∧
  tmaps (mem w') = tmaps (mem w) ∧
  configuration w' = configuration w ∧
  registryCertTuples (syncer w') = registryCertTuples (syncer w) ∧
  ch (syncer w') = S (ch (syncer w)).
Proof.
  destruct w as [sy h]. unfold UpdateRegistryMirroringConfig. intros Hrun.
  apply bind_Done in Hrun as (rsc & w0 & [-> ->]%gets_Done & Hrun).
  apply bind_Done in Hrun as (q & w1 & Hc & Hrun).
  apply bind_Done in Hrun as ([] & w2 & Ha & Hrun).
  apply bind_Done in Hrun as ([] & w3 & Hs & [<- <-]%ret_Done).
  apply lift_Done in Hc as (h1 & Hc & ->).
  apply lift_Done in Ha as (h2 & Ha & ->).
  injection Hs as <-.
  cbn [mem syncer] in *.
  apply getRegistryConfOrCreate_outcomes in Hc
    as (k & t & Ek & Hk & [(Hr & ->)|(Hr & -> & ->)]);
    unfold assign_through in Ha.
  - match type of Ha with context [objs h !! ?q] =>
      destruct (objs h !! q) as [v|] eqn:Hv; [|discriminate] end.
    injection Ha as <-. split; [done|]. split; [|by repeat split].
    left. exists q, v. unfold index_of.
    cbn [mem syncer objs rmaps set_objs registriesConfContent].
    rewrite Ek, Hk. by repeat split.
  - cbn [objs rmaps set_objs set_rmaps] in Ha.
    rewrite lookup_app_r in Ha by done. rewrite Nat.sub_diag in Ha.
    cbn [lookup list_lookup] in Ha. injection Ha as <-.
    split; [done|]. split; [|by repeat split].
    right. unfold index_of.
    cbn [mem syncer objs rmaps set_objs set_rmaps registriesConfContent].
    rewrite Ek, Hk. rewrite list_lookup_insert_eq by by eapply lookup_lt_Some.
    split; [done|]. split; [done|]. apply insert_at_end.
Qed.

Lemma UpdateRegistryMirroringConfig_outcomes_witness :
  ∃ w' p v,
    UpdateRegistryMirroringConfig "quay.io" ["mirror.internal"] listed_world = Done None w' ∧
    index_of listed_world !! "quay.io" = Some p ∧
    objs (mem listed_world) !! p = Some v ∧
    objs (mem w') = <[p := set_Mirrors ["mirror.internal"] v]> (objs (mem listed_world)).
Proof.
  destruct (UpdateRegistryMirroringConfig_outcomes "quay.io" ["mirror.internal"]
              listed_world None _ ltac:(vm_compute; reflexivity))
    as (_ & [(p & v & Hp & Hv & Ho & _)|(Hnone & _)] & _).
  - eexists _, p, v. split; [vm_compute; reflexivity|]. by repeat split.
  - vm_compute in Hnone. discriminate.
Defined.

(** ** The worker is woken once per successful call *)

Section Signal.
Context (n : nat).

Lemma signal_lift {A} (c : M heap A) :
  triple (λ w, ch (syncer w) = n) (lift c) (λ _ w, ch (syncer w) = n)
         (λ w, ch (syncer w) = n).
Proof. intros [sy h] H. unfold lift. cbn [mem syncer]. by destruct (c h). Qed.

Lemma signal_send :
  triple (λ w, ch (syncer w) = n) send (λ _ w, ch (syncer w) = S n)
         (λ w, ch (syncer w) = n).
Proof. intros [sy h] H. cbn in *. by rewrite H. Qed.

Lemma signal_certs t :
  triple (λ w, ch (syncer w) = n)
         (modify (λ w, mkWorld (set_registryCertTuples t (syncer w)) (mem w)))
         (λ _ w, ch (syncer w) = n) (λ w, ch (syncer w) = n).
Proof. by intros [sy h] H. Qed.

(** Walks down a chain of [bind]s whose statements keep the count, up to
    and including the send. *)
Ltac signal_steps :=
  repeat (eapply triple_bind;
          [ first [ apply signal_send
                  | apply signal_certs
                  | solve [stable_steps; apply signal_lift] ]
          | intros ? ]);
  try (intros ? ?; assumption).

Lemma signal_run c :
  triple (λ w, ch (syncer w) = n) (run c)
         (λ e w, ch (syncer w) = match e with None => S n | Some _ => n end)
         (λ w, ch (syncer w) = n).
Proof.
  destruct c as [a b i|t|r m|r|]; cbn [run];
    unfold StoreImageRegistryConf, StoreRegistryCerts, UpdateRegistryMirroringConfig,
      DeleteRegistryMirroringConfig, CleanupRegistryMirroringConfig.
  - destruct (_ && _); [by intros w H|]. signal_steps.
  - signal_steps.
  - signal_steps.
  - signal_steps. destruct a0; signal_steps.
  - signal_steps.
Qed.

End Signal.

Lemma failed_call_keeps_world c w e w' : run c w = Done (Some e) w' → w' = w.
Proof.
  destruct c as [a b i|t|r m|r|]; cbn [run]; intros Hrun.
  - unfold StoreImageRegistryConf in Hrun.
    destruct (_ && _); [by injection Hrun|]. exfalso. revert Hrun.
    match goal with |- ?c w = _ → _ => assert (no_error c) as Hn by no_error end.
    apply Hn.
  - by apply StoreRegistryCerts_no_error in Hrun.
  - by apply UpdateRegistryMirroringConfig_no_error in Hrun.
  - unfold DeleteRegistryMirroringConfig in Hrun.
    apply bind_Done in Hrun as (rsc & w0 & [-> ->]%gets_Done & Hrun).
    apply bind_Done in Hrun as (found & w1 & (h & Hget & ->)%lift_Done & Hrun).
    pose proof (rmap_index_same (registriesMap (registriesConfContent (syncer w))) r (mem w))
      as Hsame.
    unfold getRegistryConf in Hget. rewrite Hget in Hsame. cbn [after] in Hsame. subst h.
    destruct found as [p|].
    + exfalso. revert Hrun.
      match goal with |- ?c ?s = _ → _ => assert (no_error c) as Hn by no_error end.
      apply Hn.
    + injection Hrun as _ <-. by destruct w.
  - by apply CleanupRegistryMirroringConfig_no_error in Hrun.
Qed.

(** X7. Every mutation hands the worker exactly one value when it returns
    success and none otherwise: after a call that returned nil the count
    of values sent on the channel is one more than before, a call that
    returned an error left the whole model as it was, and a call that
    panicked sent nothing. *)
Theorem mutations_signal_once c w :
  match run c w with
  | Done None w' => ch (syncer w') = S (ch (syncer w))
  | Done (Some _) w' => w' = w
  | Panic _ w' => ch (syncer w') = ch (syncer w)
  end.
Proof.
  pose proof (signal_run (ch (syncer w)) c w eq_refl) as H.
  destruct (run c w) as [[e|] w'|msg w'] eqn:E; [|done|done].
  by eapply failed_call_keeps_world.
Qed.

(** ** ClearAllMirrors goes by the sequence *)

Lemma clear_loop l : ∀ w,
  (∀ p, p ∈ l → p < length (objs (mem w))) →
  ∃ h', for_range l (λ registry, lift (assign_through registry (set_Mirrors []))) w
          = Done tt (mkWorld (syncer w) h') ∧
        rmaps h' = rmaps (mem w) ∧ tmaps h' = tmaps (mem w) ∧
        length (objs h') = length (objs (mem w)) ∧
        ∀ p, objs h' !! p =
             if bool_decide (p ∈ l) then set_Mirrors [] <$> objs (mem w) !! p
             else objs (mem w) !! p.
Proof.
  induction l as [|x l IH]; intros [sy h] Hl; cbn [mem syncer] in *.
  - exists h. by repeat split.
  - destruct (lookup_lt_is_Some_2 (objs h) x) as [v Hv]; [apply Hl; by left|].
    destruct (IH (mkWorld sy (set_objs (<[x := set_Mirrors [] v]> (objs h)) h)))
      as (h' & Hrun & Hr & Ht & Hlen & Hobjs).
    { intros p Hp. cbn [mem objs set_objs]. rewrite length_insert. apply Hl. by right. }
    cbn [mem syncer objs rmaps tmaps set_objs] in *.
    exists h'. split; [|split; [done|split; [done|split]]].
    + cbn [for_range]. unfold bind at 1. unfold lift at 1, assign_through at 1.
      cbn [mem syncer]. rewrite Hv. exact Hrun.
    + by rewrite Hlen, length_insert.
    + intros p. rewrite Hobjs. destruct (decide (p = x)) as [->|Hne].
      * rewrite list_lookup_insert_eq by by eapply lookup_lt_Some.
        rewrite (bool_decide_eq_true_2 (x ∈ x :: l)) by by left.
        rewrite Hv. by case_bool_decide.
      * rewrite list_lookup_insert_ne by done.
        case_bool_decide as Hin.
        -- rewrite bool_decide_eq_true_2; [done|by right].
        -- rewrite bool_decide_eq_false_2; [done|].
           intros [?|?]%elem_of_cons; done.
Qed.

(** X8. ClearAllMirrors empties the mirror list of the entries the
    Registries sequence lists and of no other: on a model whose listed
    pointers are allocated it returns nil, every listed entry keeps its
    other fields and has no mirror, every entry that is not listed (as
    those created through the index are) is untouched, and the index, the
    policy and the certificates are as before. *)
Theorem CleanupRegistryMirroringConfig_clears_listed w :
  (∀ p, p ∈ sequence_of w → p < length (objs (mem w))) →
  ∃ w', CleanupRegistryMirroringConfig w = Done None w' ∧
        (∀ p, objs (mem w') !! p =
              if bool_decide (p ∈ sequence_of w) then set_Mirrors [] <$> objs (mem w) !! p
              else objs (mem w) !! p) ∧
        index_of w' = index_of w ∧
        transports_of w' = transports_of w ∧
        configuration w' = configuration w ∧
        registryCertTuples (syncer w') = registryCertTuples (syncer w).
Proof.
  intros Hl. destruct (clear_loop (sequence_of w) w Hl) as (h' & Hrun & Hr & Ht & _ & Ho).
  destruct w as [sy h]. cbn [mem syncer] in *.
  eexists. split.
  - unfold CleanupRegistryMirroringConfig, bind at 1, gets. cbn [syncer].
    unfold sequence_of in Hrun. cbn [syncer] in Hrun.
    unfold bind at 1. rewrite Hrun. reflexivity.
  - cbn [mem syncer]. split; [exact Ho|].
    unfold index_of, transports_of, configuration. cbn [mem syncer registriesConfContent
      policyConfContent registryCertTuples]. by rewrite Hr, Ht.
Qed.

Lemma CleanupRegistryMirroringConfig_clears_listed_witness :
  ∃ w', CleanupRegistryMirroringConfig listed_world = Done None w' ∧
        objs (mem w') !! 0 = Some (mkRegistryConf "quay.io" "" [] None (Some true) None).
Proof.
  destruct (CleanupRegistryMirroringConfig_clears_listed listed_world) as (w' & Hrun & Ho & _).
  - intros p Hp. apply list_elem_of_singleton in Hp as ->. cbn. lia.
  - exists w'. split; [exact Hrun|]. by rewrite Ho.
Defined.

(** ** Certificates from the config map *)

Lemma ParseRegistryCerts_fmap yielded :
  ParseRegistryCerts yielded = (λ kv, mkRegistryCertTuple kv.1 kv.2) <$> yielded.
Proof.
  unfold ParseRegistryCerts.
  assert (∀ acc, foldl (λ registryCertTuples (kv : string * string),
                          registryCertTuples ++ [mkRegistryCertTuple kv.1 kv.2]) acc yielded
                 = acc ++ ((λ kv, mkRegistryCertTuple kv.1 kv.2) <$> yielded)) as H.
  { induction yielded as [|kv l IH]; intros acc; cbn [foldl fmap list_fmap].
    - by rewrite app_nil_r.
    - rewrite IH. by rewrite <- app_assoc. }
  apply (H []).
Qed.

Lemma ParseRegistryCerts_elem m yielded k v :
  range_of m yielded →
  mkRegistryCertTuple k v ∈ ParseRegistryCerts yielded ↔ m !! k = Some v.
Proof.
  intros Hr. rewrite ParseRegistryCerts_fmap, list_elem_of_fmap. split.
  - intros ([k' v'] & [= -> ->] & Hin). apply elem_of_map_to_list.
    unfold range_of in Hr. by rewrite <- Hr.
  - intros Hk. exists (k, v). split; [done|].
    unfold range_of in Hr. rewrite Hr. by apply elem_of_map_to_list.
Qed.

(** X10. ParseRegistryCerts turns the data of the config map into one
    tuple per entry, whatever the order in which the loop meets the
    entries: the slice has as many tuples as the map has keys, no registry
    occurs twice, and a tuple is in the slice exactly when the map holds
    its certificate under its registry. *)
Theorem ParseRegistryCerts_of_range m yielded :
  range_of m yielded →
  length (ParseRegistryCerts yielded) = size m ∧
  NoDup (registry <$> ParseRegistryCerts yielded) ∧
  ∀ k v, mkRegistryCertTuple k v ∈ ParseRegistryCerts yielded ↔ m !! k = Some v.
Proof.
  intros Hr. split; [|split].
  - rewrite ParseRegistryCerts_fmap, length_fmap. unfold range_of in Hr.
    rewrite Hr. apply length_map_to_list.
  - rewrite ParseRegistryCerts_fmap, <- list_fmap_compose.
    unfold range_of in Hr.
    assert (registry ∘ (λ kv : string * string, mkRegistryCertTuple kv.1 kv.2) <$> yielded
            = yielded.*1) as -> by (apply list_fmap_ext; by intros ? []).
    rewrite Hr. apply NoDup_fst_map_to_list.
  - intros k v. by apply ParseRegistryCerts_elem.
Qed.

Lemma ParseRegistryCerts_of_range_witness :
  length (ParseRegistryCerts [("quay.io..8443", "PEM")]) = size ({["quay.io..8443" := "PEM"]} : gmap string string).
Proof.
  refine (proj1 (ParseRegistryCerts_of_range {["quay.io..8443" := "PEM"]}
                   [("quay.io..8443", "PEM")] _)).
  unfold range_of. by rewrite map_to_list_singleton.
Defined.

(** X11. The handlers of the certificates config map never panic and
    never touch the registries or the policy.  An object that is not a
    config map, or a config map of another name, leaves the model exactly
    as it was and wakes nobody; the config map
    "image-registry-certificates" replaces the certificate tuples by those
    of its data (a tuple per entry of the map) and wakes the worker once.
    The update handler does what the add handler does on the new object
    and never looks at the old one. *)
Theorem registryCertificates_handlers oldobj obj yielded w :
  ∃ w',
    openshift.RegistryCertificatesConfigMapOnAdd obj yielded w = Done tt w' ∧
    openshift.RegistryCertificatesConfigMapOnUpdate oldobj obj yielded w = Done tt w' ∧
    mem w' = mem w ∧ configuration w' = configuration w ∧
    match obj with
    | openshift.CM cm =>
      if String.eqb (openshift.cm_Name cm) "image-registry-certificates" then
        ch (syncer w') = S (ch (syncer w)) ∧
        (range_of (openshift.Data cm) yielded →
         ∀ k v, mkRegistryCertTuple k v ∈ registryCertTuples (syncer w')
                ↔ openshift.Data cm !! k = Some v)
      else w' = w
    | _ => w' = w
    end.
Proof.
  unfold openshift.RegistryCertificatesConfigMapOnAdd,
    openshift.RegistryCertificatesConfigMapOnUpdate,
    openshift.registryCertificatesConfigMapOnAddOrUpdate.
  destruct w as [sy h]. destruct obj as [icsp|cm|].
  - by exists (mkWorld sy h).
  - destruct (String.eqb (openshift.cm_Name cm) "image-registry-certificates") eqn:E;
      cbn [negb].
    + eexists. split; [reflexivity|]. split; [reflexivity|].
      cbn [mem syncer ch registryCertTuples set_registryCertTuples].
      split; [done|]. split; [done|]. split; [done|].
      intros Hr k v. by apply ParseRegistryCerts_elem.
    + by exists (mkWorld sy h).
  - by exists (mkWorld sy h).
Qed.

(** ** The handlers of image content source policies *)

Lemma index_wf_lookup sy h k t :
  registriesMap (registriesConfContent sy) = Some k → rmaps h !! k = Some t →
  index_of (mkWorld sy h) = t.
Proof. intros Ek Hk. unfold index_of. cbn [mem syncer]. by rewrite Ek, Hk. Qed.

Lemma bind_run {S A B} (c : M S A) (k : A → M S B) s a s1 :
  c s = Done a s1 → bind c k s = k a s1.
Proof. intros H. unfold bind. by rewrite H. Qed.

Lemma lift_run {A} (c : M heap A) w a h :
  c (mem w) = Done a h → lift c w = Done a (mkWorld (syncer w) h).
Proof. intros H. unfold lift. by rewrite H. Qed.

Lemma getRegistryConfOrCreate_run rsc r h k t :
  registriesMap rsc = Some k → rmaps h !! k = Some t →
  getRegistryConfOrCreate rsc r h =
    match t !! r with
    | Some p => Done p h
    | None => Done (length (objs h))
                   (set_rmaps (<[k := <[r := length (objs h)]> t]> (rmaps h))
                      (set_objs (objs h ++ [created r]) h))
    end.
Proof.
  intros Ek Hk.
  unfold getRegistryConfOrCreate, bind, rmap_index, rmap_assign, new_registryConf, ret.
  rewrite Ek, Hk. destruct (t !! r); [done|]. cbn [rmaps set_objs]. by rewrite Hk.
Qed.

Lemma SetMirrors_step r m w :
  index_wf w → is_Some (registriesMap (registriesConfContent (syncer w))) →
  ∃ w', UpdateRegistryMirroringConfig r m w = Done None w' ∧
        index_wf w' ∧ configuration w' = configuration w ∧
        ch (syncer w') = S (ch (syncer w)) ∧
        ∀ r', entry w' r' =
              if String.eqb r r'
              then Some (set_Mirrors m (default (created r) (entry w r)))
              else entry w r'.
Proof.
  destruct w as [sy h]. intros (Hm & Hp & Hinj) [k Ek]. cbn [mem syncer] in *.
  destruct (Hm k Ek) as [t Hk].
  pose proof (index_wf_lookup sy h k t Ek Hk) as Hidx. rewrite Hidx in Hp, Hinj.
  pose proof (getRegistryConfOrCreate_run (registriesConfContent sy) r h k t Ek Hk) as Hc.
  unfold UpdateRegistryMirroringConfig.
  erewrite (bind_run (gets _)) by reflexivity. cbn [syncer].
  destruct (t !! r) as [p|] eqn:Hr.
  - destruct (lookup_lt_is_Some_2 (objs h) p) as [v Hv]; [by eapply Hp|].
    erewrite (bind_run (lift _)) by (apply lift_run; exact Hc).
    erewrite (bind_run (lift _))
      by (apply lift_run; unfold assign_through; cbn [mem]; by rewrite Hv).
    cbn [mem syncer]. eexists. split; [reflexivity|].
    split; [|split; [done|split; [done|]]].
    + split; [|split]; cbn [mem syncer registriesConfContent rmaps objs set_objs].
      * intros m0 E. rewrite Ek in E. injection E as <-. eauto.
      * intros k0 p0. rewrite (index_wf_lookup _ _ k t) by done.
        rewrite length_insert. apply Hp.
      * intros k1 k2 p0. rewrite (index_wf_lookup _ _ k t) by done. apply Hinj.
    + intros r'. unfold entry. rewrite Hidx, (index_wf_lookup _ _ k t) by done.
      cbn [mem objs set_objs]. rewrite Hr. cbn [default].
      destruct (String.eqb_spec r r') as [<-|Hne].
      * rewrite Hr, Hv. cbn [default].
        apply list_lookup_insert_eq. by eapply lookup_lt_Some.
      * destruct (t !! r') as [q|] eqn:Hq; [|done].
        apply list_lookup_insert_ne. intros <-. apply Hne. by eapply Hinj.
  - erewrite (bind_run (lift _)) by (apply lift_run; exact Hc).
    erewrite (bind_run (lift _)).
    2:{ apply lift_run. unfold assign_through. cbn [mem objs set_objs set_rmaps].
        rewrite lookup_app_r by done. rewrite Nat.sub_diag. reflexivity. }
    cbn [mem syncer objs rmaps tmaps set_objs set_rmaps].
    rewrite insert_at_end.
    unfold send, modify, bind, ret, set_objs, set_rmaps.
    cbn [mem syncer objs rmaps tmaps].
    eexists. split; [reflexivity|].
    assert (∀ sy' o, registriesMap (registriesConfContent sy') = Some k →
              index_of (mkWorld sy'
                (mkHeap o (<[k := <[r := length (objs h)]> t]> (rmaps h)) (tmaps h)))
              = <[r := length (objs h)]> t) as Hidx'.
    { intros sy' o E. apply (index_wf_lookup _ _ k); [done|]. cbn [rmaps].
      apply list_lookup_insert_eq. by eapply lookup_lt_Some. }
    split; [|split; [done|split; [done|]]].
    + split; [|split]; cbn [mem syncer registriesConfContent rmaps objs].
      * intros m0 E. rewrite Ek in E. injection E as <-.
        rewrite list_lookup_insert_eq by by eapply lookup_lt_Some. eauto.
      * intros k0 p0. rewrite Hidx' by done.
        rewrite length_app. cbn [length].
        intros [[_ <-]|[_ H]]%lookup_insert_Some; [lia|]. apply Hp in H. lia.
      * intros k1 k2 p0. rewrite Hidx' by done.
        intros [[<- <-]|[N1 H1]]%lookup_insert_Some [[<- E]|[N2 H2]]%lookup_insert_Some.
        -- done.
        -- apply Hp in H2. lia.
        -- apply Hp in H1. lia.
        -- by eapply Hinj.
    + intros r'. unfold entry. rewrite Hidx, Hidx' by done.
      cbn [mem objs]. rewrite Hr. cbn [default].
      destruct (String.eqb_spec r r') as [<-|Hne].
      * rewrite lookup_insert_eq. rewrite lookup_app_r by done.
        by rewrite Nat.sub_diag.
      * rewrite lookup_insert_ne by done.
        destruct (t !! r') as [q|] eqn:Hq; [|done].
        apply lookup_app_l. by eapply Hp.
Qed.

Lemma ClearMirrors_step r w :
  index_wf w →
  ∃ e w', DeleteRegistryMirroringConfig r w = Done e w' ∧
          index_wf w' ∧ configuration w' = configuration w ∧
          index_of w' = index_of w ∧
          ch (syncer w') = (if bool_decide (is_Some (index_of w !! r))
                            then S (ch (syncer w)) else ch (syncer w)) ∧
          ∀ r', entry w' r' =
                if String.eqb r r' then set_Mirrors [] <$> entry w r else entry w r'.
Proof.
  destruct w as [sy h]. intros Hwf. pose proof Hwf as (Hm & Hp & Hinj).
  cbn [mem syncer] in *.
  assert (∀ r', index_of (mkWorld sy h) !! r = None →
                entry (mkWorld sy h) r' =
                if String.eqb r r' then set_Mirrors [] <$> entry (mkWorld sy h) r
                else entry (mkWorld sy h) r') as Hunknown.
  { intros r' Hr. destruct (String.eqb_spec r r') as [<-|]; [|done].
    unfold entry. by rewrite Hr. }
  unfold DeleteRegistryMirroringConfig.
  erewrite (bind_run (gets _)) by reflexivity. cbn [syncer].
  destruct (registriesMap (registriesConfContent sy)) as [k|] eqn:Ek.
  - destruct (Hm k eq_refl) as [t Hk].
    pose proof (index_wf_lookup sy h k t Ek Hk) as Hidx.
    erewrite (bind_run (lift _)).
    2:{ apply lift_run. unfold getRegistryConf, rmap_index. cbn [mem].
        rewrite Ek, Hk. reflexivity. }
    cbn [mem syncer]. destruct (t !! r) as [p|] eqn:Hr.
    + destruct (lookup_lt_is_Some_2 (objs h) p) as [v Hv].
      { eapply Hp. by rewrite Hidx. }
      erewrite (bind_run (lift _))
        by (apply lift_run; unfold assign_through; cbn [mem]; by rewrite Hv).
      unfold send, modify, bind, ret, set_objs. cbn [mem syncer objs rmaps tmaps].
      eexists _, _. split; [reflexivity|].
      assert (∀ sy' o, registriesMap (registriesConfContent sy') = Some k →
                index_of (mkWorld sy' (mkHeap o (rmaps h) (tmaps h))) = t) as Hidx'.
      { intros sy' o E. by apply (index_wf_lookup _ _ k). }
      rewrite Hidx in *. rewrite Hr.
      split; [|split; [done|split; [by apply Hidx'|split; [done|]]]].
      * split; [|split]; cbn [mem syncer registriesConfContent rmaps objs].
        -- intros m0 E. rewrite Ek in E. injection E as <-. eauto.
        -- intros k0 p0. rewrite Hidx' by done. rewrite length_insert. apply Hp.
        -- intros k1 k2 p0. rewrite Hidx' by done. apply Hinj.
      * intros r'. unfold entry. rewrite Hidx, Hidx' by done. cbn [mem objs].
        rewrite Hr, Hv. cbn [fmap option_fmap option_map].
        destruct (String.eqb_spec r r') as [<-|Hne].
        -- rewrite Hr. apply list_lookup_insert_eq. by eapply lookup_lt_Some.
        -- destruct (t !! r') as [q|] eqn:Hq; [|done].
           apply list_lookup_insert_ne. intros <-. apply Hne. by eapply Hinj.
    + eexists _, _. split; [reflexivity|]. rewrite Hidx in *. rewrite Hr.
      split; [done|]. split; [done|]. split; [done|]. split; [done|].
      intros r'. by apply Hunknown.
  - erewrite (bind_run (lift _)).
    2:{ apply lift_run. unfold getRegistryConf, rmap_index. cbn [mem].
        rewrite Ek. reflexivity. }
    cbn [mem syncer]. eexists _, _. split; [reflexivity|].
    assert (index_of (mkWorld sy h) = ∅) as Hidx
      by (unfold index_of; cbn [mem syncer]; by rewrite Ek).
    split; [done|]. split; [done|]. split; [done|]. split.
    + by rewrite Hidx, lookup_empty.
    + intros r'. apply Hunknown. by rewrite Hidx, lookup_empty.
Qed.

Lemma add_loop sources : ∀ w,
  index_wf w → is_Some (registriesMap (registriesConfContent (syncer w))) →
  ∃ w', for_range sources (λ source,
          let! err := UpdateRegistryMirroringConfig (openshift.Source source)
                                                    (openshift.Mirrors source) in
          match err with
          | Some _ => ret tt
          | None => ret tt
          end) w = Done tt w' ∧
        index_wf w' ∧ configuration w' = configuration w ∧
        ch (syncer w') = length sources + ch (syncer w) ∧
        ∀ r, entry w' r =
             match last_mirrors sources r with
             | Some m => Some (set_Mirrors m (default (created r) (entry w r)))
             | None => entry w r
             end.
Proof.
  induction sources as [|s sources IH]; intros w Hwf Hnn.
  - exists w. split; [done|]. split; [done|]. by repeat split.
  - destruct (SetMirrors_step (openshift.Source s) (openshift.Mirrors s) w Hwf Hnn)
      as (w1 & Hrun & Hwf1 & Hc1 & Hch1 & He1).
    destruct (IH w1 Hwf1) as (w' & Hloop & Hwf' & Hc' & Hch' & He').
    { injection Hc1 as -> _. exact Hnn. }
    exists w'. split; [|split; [done|split; [congruence|split]]].
    + cbn [for_range]. erewrite bind_run; [exact Hloop|].
      erewrite bind_run; [|exact Hrun]. reflexivity.
    + rewrite Hch', Hch1. cbn [length]. lia.
    + intros r. rewrite He'. cbn [last_mirrors]. rewrite !He1.
      destruct (last_mirrors sources r) as [m|].
      * by destruct (String.eqb_spec (openshift.Source s) r) as [->|].
      * by destruct (String.eqb_spec (openshift.Source s) r) as [->|].
Qed.

Lemma delete_loop sources : ∀ w,
  index_wf w →
  ∃ w', for_range sources (λ source,
          let! err := DeleteRegistryMirroringConfig (openshift.Source source) in
          match err with
          | Some _ => ret tt
          | None => ret tt
          end) w = Done tt w' ∧
        index_wf w' ∧ configuration w' = configuration w ∧
        index_of w' = index_of w ∧
        ch (syncer w') =
          length (filter (λ s, is_Some (index_of w !! openshift.Source s)) sources)
          + ch (syncer w) ∧
        ∀ r, entry w' r =
             if bool_decide (r ∈ openshift.Source <$> sources)
             then set_Mirrors [] <$> entry w r else entry w r.
Proof.
  induction sources as [|s sources IH]; intros w Hwf.
  - exists w. split; [done|]. split; [done|]. by repeat split.
  - destruct (ClearMirrors_step (openshift.Source s) w Hwf)
      as (e & w1 & Hrun & Hwf1 & Hc1 & Hi1 & Hch1 & He1).
    destruct (IH w1 Hwf1) as (w' & Hloop & Hwf' & Hc' & Hi' & Hch' & He').
    exists w'. split; [|split; [done|split; [congruence|split; [congruence|split]]]].
    + cbn [for_range]. erewrite bind_run; [exact Hloop|].
      erewrite bind_run; [|exact Hrun]. by destruct e.
    + rewrite Hch', Hch1, Hi1. rewrite filter_cons.
      case_bool_decide as Hk.
      * rewrite decide_True by done. cbn [length]. lia.
      * by rewrite decide_False by done.
    + intros r. rewrite He', !He1. cbn [fmap list_fmap].
      destruct (String.eqb_spec (openshift.Source s) r) as [->|Hne].
      * rewrite (bool_decide_eq_true_2 (_ ∈ _ :: _)) by by left.
        destruct (bool_decide (r ∈ openshift.Source <$> sources));
          by destruct (entry w r).
      * destruct (decide (r ∈ openshift.Source <$> sources)) as [Hin|Hin].
        -- rewrite !bool_decide_eq_true_2; [done|by right|done].
        -- rewrite !bool_decide_eq_false_2; [done| |done].
           intros [?|?]%elem_of_cons; done.
Qed.

Lemma ICSPOnAdd_loop obj :
  openshift.ICSPOnAdd obj =
    for_range (sources_of obj) (λ source,
      let! err := UpdateRegistryMirroringConfig (openshift.Source source)
                                                (openshift.Mirrors source) in
      match err with
      | Some _ => ret tt
      | None => ret tt
      end).
Proof. by destruct obj. Qed.

Lemma ICSPOnDelete_loop obj :
  openshift.ICSPOnDelete obj =
    for_range (sources_of obj) (λ source,
      let! err := DeleteRegistryMirroringConfig (openshift.Source source) in
      match err with
      | Some _ => ret tt
      | None => ret tt
      end).
Proof. by destruct obj. Qed.

Lemma index_wf_listed_world : index_wf listed_world.
Proof.
  assert (index_of listed_world = <["quay.io" := 0]> ∅) as Hidx by reflexivity.
  split; [|split].
  - intros m [= <-]. by eexists.
  - intros k p. rewrite Hidx.
    intros [[_ <-]|[_ H]]%lookup_insert_Some; [cbn; lia|by rewrite lookup_empty in H].
  - intros k1 k2 p. rewrite Hidx.
    intros [[<- _]|[_ H1]]%lookup_insert_Some [[<- _]|[_ H2]]%lookup_insert_Some;
      first [done|by rewrite lookup_empty in H1|by rewrite lookup_empty in H2].
Qed.

(** X12. On a model whose index is allocated and well formed the add
    handler returns, and afterwards every registry some source of the
    policy names has the mirrors of the last such source (on a new entry
    in the index if it had none, with its other fields kept if it had
    one), every other registry has the entry it had, the worker was woken
    once per source, and the Registries sequence is as before: the new
    entries are reachable through the index only.  An object of another
    type has no source. *)
Theorem ICSPOnAdd_installs_last_mirrors obj w :
  index_wf w → is_Some (registriesMap (registriesConfContent (syncer w))) →
  ∃ w', openshift.ICSPOnAdd obj w = Done tt w' ∧
        index_wf w' ∧ sequence_of w' = sequence_of w ∧
        ch (syncer w') = length (sources_of obj) + ch (syncer w) ∧
        ∀ r, entry w' r =
             match last_mirrors (sources_of obj) r with
             | Some m => Some (set_Mirrors m (default (created r) (entry w r)))
             | None => entry w r
             end.
Proof.
  intros Hwf Hnn. rewrite ICSPOnAdd_loop.
  destruct (add_loop (sources_of obj) w Hwf Hnn) as (w' & Hrun & Hwf' & Hc & Hch & He).
  exists w'. split; [done|]. split; [done|]. split; [|by split].
  unfold sequence_of. by injection Hc as -> _.
Qed.

Lemma ICSPOnAdd_installs_last_mirrors_witness :
  ∃ w', openshift.ICSPOnAdd
          (openshift.ICSP (openshift.mkImageContentSourcePolicy "policy"
             [openshift.mkRepositoryDigestMirrors "quay.io" ["a.example.com"];
              openshift.mkRepositoryDigestMirrors "docker.io" ["b.example.com"];
              openshift.mkRepositoryDigestMirrors "quay.io" ["c.example.com"]]))
          listed_world = Done tt w' ∧
        entry w' "quay.io"
          = Some (mkRegistryConf "quay.io" "" ["c.example.com"] None (Some true) None) ∧
        entry w' "docker.io"
          = Some (mkRegistryConf "docker.io" "" ["b.example.com"] None None None) ∧
        sequence_of w' = [0].
Proof.
  destruct (ICSPOnAdd_installs_last_mirrors
              (openshift.ICSP (openshift.mkImageContentSourcePolicy "policy"
                 [openshift.mkRepositoryDigestMirrors "quay.io" ["a.example.com"];
                  openshift.mkRepositoryDigestMirrors "docker.io" ["b.example.com"];
                  openshift.mkRepositoryDigestMirrors "quay.io" ["c.example.com"]]))
              listed_world index_wf_listed_world ltac:(by eexists))
    as (w' & Hrun & _ & Hs & _ & He).
  exists w'. split; [exact Hrun|]. rewrite !He. by rewrite Hs.
Defined.

(** X13. On a model whose index is well formed the delete handler
    returns; it removes nothing: the index holds the same entries under
    the same locations, a registry that a source of the policy names keeps
    its entry with an empty mirror list, every other entry is untouched,
    a source whose registry is unknown is skipped, and the worker was
    woken once per source whose registry was known. *)
Theorem ICSPOnDelete_empties_named obj w :
  index_wf w →
  ∃ w', openshift.ICSPOnDelete obj w = Done tt w' ∧
        index_wf w' ∧ index_of w' = index_of w ∧ sequence_of w' = sequence_of w ∧
        ch (syncer w') =
          length (filter (λ s, is_Some (index_of w !! openshift.Source s)) (sources_of obj))
          + ch (syncer w) ∧
        ∀ r, entry w' r =
             if bool_decide (r ∈ openshift.Source <$> sources_of obj)
             then set_Mirrors [] <$> entry w r else entry w r.
Proof.
  intros Hwf. rewrite ICSPOnDelete_loop.
  destruct (delete_loop (sources_of obj) w Hwf) as (w' & Hrun & Hwf' & Hc & Hi & Hch & He).
  exists w'. split; [done|]. split; [done|]. split; [done|]. split; [|by split].
  unfold sequence_of. by injection Hc as -> _.
Qed.

Lemma ICSPOnDelete_empties_named_witness :
  ∃ w', openshift.ICSPOnDelete
          (openshift.ICSP (openshift.mkImageContentSourcePolicy "policy"
             [openshift.mkRepositoryDigestMirrors "quay.io" ["a.example.com"];
              openshift.mkRepositoryDigestMirrors "docker.io" ["b.example.com"]]))
          listed_world = Done tt w' ∧
        entry w' "quay.io" = Some (mkRegistryConf "quay.io" "" [] None (Some true) None) ∧
        entry w' "docker.io" = None ∧
        ch (syncer w') = 1.
Proof.
  destruct (ICSPOnDelete_empties_named
              (openshift.ICSP (openshift.mkImageContentSourcePolicy "policy"
                 [openshift.mkRepositoryDigestMirrors "quay.io" ["a.example.com"];
                  openshift.mkRepositoryDigestMirrors "docker.io" ["b.example.com"]]))
              listed_world index_wf_listed_world)
    as (w' & Hrun & _ & _ & _ & Hch & He).
  exists w'. split; [exact Hrun|]. rewrite !He. by rewrite Hch.
Defined.

(** X14. The update handler is the delete handler on the old object
    followed by the add handler on the new one.  On a model whose index is
    allocated and well formed it returns, and afterwards a registry the
    new policy names has the mirrors of its last source there, a registry
    only the old policy names keeps an entry, with no mirrors, and every
    other entry is as it was. *)
Theorem ICSPOnUpdate_replaces_mirrors oldobj newobj w :
  index_wf w → is_Some (registriesMap (registriesConfContent (syncer w))) →
  ∃ w', openshift.ICSPOnUpdate oldobj newobj w = Done tt w' ∧
        index_wf w' ∧
        ∀ r, entry w' r =
             match last_mirrors (sources_of newobj) r with
             | Some m => Some (set_Mirrors m (default (created r) (entry w r)))
             | None => if bool_decide (r ∈ openshift.Source <$> sources_of oldobj)
                       then set_Mirrors [] <$> entry w r else entry w r
             end.
Proof.
  intros Hwf Hnn. unfold openshift.ICSPOnUpdate.
  rewrite ICSPOnDelete_loop, ICSPOnAdd_loop.
  destruct (delete_loop (sources_of oldobj) w Hwf) as (w1 & Hdel & Hwf1 & Hc1 & _ & _ & He1).
  destruct (add_loop (sources_of newobj) w1 Hwf1) as (w' & Hadd & Hwf' & _ & _ & He').
  { injection Hc1 as -> _. exact Hnn. }
  exists w'. split; [by erewrite bind_run|]. split; [done|].
  intros r. rewrite He', He1.
  destruct (last_mirrors (sources_of newobj) r) as [m|]; [|done].
  case_bool_decide; [|done]. by destruct (entry w r).
Qed.

Lemma ICSPOnUpdate_replaces_mirrors_witness :
  ∃ w', openshift.ICSPOnUpdate
          (openshift.ICSP (openshift.mkImageContentSourcePolicy "policy"
             [openshift.mkRepositoryDigestMirrors "quay.io" ["a.example.com"]]))
          (openshift.ICSP (openshift.mkImageContentSourcePolicy "policy"
             [openshift.mkRepositoryDigestMirrors "docker.io" ["b.example.com"]]))
          listed_world = Done tt w' ∧
        entry w' "quay.io" = Some (mkRegistryConf "quay.io" "" [] None (Some true) None) ∧
        entry w' "docker.io"
          = Some (mkRegistryConf "docker.io" "" ["b.example.com"] None None None).
Proof.
  destruct (ICSPOnUpdate_replaces_mirrors
              (openshift.ICSP (openshift.mkImageContentSourcePolicy "policy"
                 [openshift.mkRepositoryDigestMirrors "quay.io" ["a.example.com"]]))
              (openshift.ICSP (openshift.mkImageContentSourcePolicy "policy"
                 [openshift.mkRepositoryDigestMirrors "docker.io" ["b.example.com"]]))
              listed_world index_wf_listed_world ltac:(by eexists))
    as (w' & Hrun & _ & He).
  exists w'. split; [exact Hrun|]. by rewrite !He.
Defined.

(** ** The handlers on the states the operator reaches *)

Lemma bind_panic {S A B} (c : M S A) (k : A → M S B) s msg s1 :
  c s = Panic msg s1 → bind c k s = Panic msg s1.
Proof. intros H. unfold bind. by rewrite H. Qed.

Lemma lift_panic {A} (c : M heap A) w msg h :
  c (mem w) = Panic msg h → lift c w = Panic msg (mkWorld (syncer w) h).
Proof. intros H. unfold lift. by rewrite H. Qed.

Lemma ClearMirrors_nil r w :
  registriesMap (registriesConfContent (syncer w)) = None →
  DeleteRegistryMirroringConfig r w = Done (Some (ErrRegistryNotFound r)) w.
Proof.
  intros Hnil. unfold DeleteRegistryMirroringConfig.
  erewrite (bind_run (gets _)) by reflexivity.
  erewrite (bind_run (lift _)).
  2:{ apply lift_run. unfold getRegistryConf, rmap_index. rewrite Hnil. reflexivity. }
  by destruct w.
Qed.

Lemma delete_loop_nil sources w :
  registriesMap (registriesConfContent (syncer w)) = None →
  for_range sources (λ source,
    let! err := DeleteRegistryMirroringConfig (openshift.Source source) in
    match err with
    | Some _ => ret tt
    | None => ret tt
    end) w = Done tt w.
Proof.
  intros Hnil. induction sources as [|s sources IH]; [done|].
  cbn [for_range]. erewrite bind_run; [exact IH|].
  erewrite bind_run; [|by apply ClearMirrors_nil]. reflexivity.
Qed.

(** X15. On every state the operations reach from the fresh model the
    index is nil, so the delete handler finds no registry and returns
    with the model untouched, the add handler returns only for an object
    without sources and panics at the first source of any other, and the
    update handler ends as the add handler on the new object does. *)
Theorem ICSP_handlers_on_reachable obj w :
  reachable w →
  (∀ oldobj, openshift.ICSPOnDelete oldobj w = Done tt w) ∧
  (sources_of obj = [] → openshift.ICSPOnAdd obj w = Done tt w) ∧
  (sources_of obj ≠ [] →
   ∃ w', openshift.ICSPOnAdd obj w = Panic "assignment to entry in nil map" w') ∧
  (∀ oldobj, openshift.ICSPOnUpdate oldobj obj w = openshift.ICSPOnAdd obj w).
Proof.
  intros Hreach. pose proof (reachable_pristine w Hreach) as (E & _).
  assert (registriesMap (registriesConfContent (syncer w)) = None) as Hnil by by rewrite E.
  assert (∀ oldobj, openshift.ICSPOnDelete oldobj w = Done tt w) as Hdel.
  { intros oldobj. rewrite ICSPOnDelete_loop. by apply delete_loop_nil. }
  split; [exact Hdel|]. split; [|split].
  - rewrite ICSPOnAdd_loop. by intros ->.
  - rewrite ICSPOnAdd_loop. destruct (sources_of obj) as [|s sources]; [done|]. intros _.
    destruct (UpdateRegistryMirroringConfig_panics w (openshift.Source s)
                (openshift.Mirrors s) Hreach) as (w' & Hp).
    exists w'. cbn [for_range]. apply bind_panic. by apply bind_panic.
  - intros oldobj. unfold openshift.ICSPOnUpdate. by erewrite bind_run.
Qed.

Lemma ICSP_handlers_on_reachable_witness :
  ∃ w', openshift.ICSPOnAdd
          (openshift.ICSP (openshift.mkImageContentSourcePolicy "policy"
             [openshift.mkRepositoryDigestMirrors "quay.io" ["a.example.com"]]))
          fresh_world = Panic "assignment to entry in nil map" w'.
Proof.
  refine (proj1 (proj2 (proj2 (ICSP_handlers_on_reachable
            (openshift.ICSP (openshift.mkImageContentSourcePolicy "policy"
               [openshift.mkRepositoryDigestMirrors "quay.io" ["a.example.com"]]))
            fresh_world reach_fresh))) _).
  discriminate.
Defined.

(** ** The handler of the cluster image configuration *)

Lemma StoreImageRegistryConf_result a b i w e w' :
  StoreImageRegistryConf a b i w = Done e w' →
  e = if Nat.ltb 0 (length a) && Nat.ltb 0 (length b) then Some ErrOnlyOneOf else None.
Proof.
  unfold StoreImageRegistryConf. destruct (_ && _); [by intros [= <- _]|].
  destruct e as [e|]; [|done]. intros Hrun. exfalso. revert Hrun.
  match goal with |- ?c w = _ → _ => assert (no_error c) as Hn by no_error end.
  apply Hn.
Qed.

(** X16. The handler of the image configuration never reports: it drops
    deletions, bookmarks and objects that set both the allowed and the
    blocked list, leaving the model exactly as it was, and on every other
    event it either returns with the worker woken once or panics with the
    worker not woken. *)
Theorem imageConfigHandler_drops_or_signals et image w :
  match imageConfigHandler et image w with
  | Done _ w' => if dropped et image then w' = w
                 else ch (syncer w') = S (ch (syncer w))
  | Panic _ w' => dropped et image = false ∧ ch (syncer w') = ch (syncer w)
  end.
Proof.
  assert (match (let! err := StoreImageRegistryConf (AllowedRegistries image)
                               (BlockedRegistries image) (InsecureRegistries image) in
                 match err with
                 | Some _ => ret tt
                 | None => ret tt
                 end) w with
          | Done _ w' =>
            if Nat.ltb 0 (length (AllowedRegistries image))
               && Nat.ltb 0 (length (BlockedRegistries image))
            then w' = w else ch (syncer w') = S (ch (syncer w))
          | Panic _ w' =>
            Nat.ltb 0 (length (AllowedRegistries image))
            && Nat.ltb 0 (length (BlockedRegistries image)) = false
            ∧ ch (syncer w') = ch (syncer w)
          end) as H.
  { pose proof (signal_run (ch (syncer w))
                  (SetRegistryPolicy (AllowedRegistries image) (BlockedRegistries image)
                                     (InsecureRegistries image)) w eq_refl) as Hs.
    cbn [run] in Hs. unfold bind.
    destruct (StoreImageRegistryConf _ _ _ w) as [e w'|msg w'] eqn:Hrun.
    - pose proof (StoreImageRegistryConf_result _ _ _ _ _ _ Hrun) as He.
      destruct (_ && _); subst e; cbn [ret]; [|done].
      by apply (failed_call_keeps_world (SetRegistryPolicy _ _ _)) in Hrun.
    - split; [|done]. unfold StoreImageRegistryConf in Hrun.
      by destruct (_ && _). }
  destruct et; cbn [imageConfigHandler dropped]; first [exact H|done].
Qed.

Lemma create_round_panics {A} (k : ptr → M world A) x w :
  registriesMap (registriesConfContent (syncer w)) = None →
  ∃ w', (let! rsc := gets (λ w, registriesConfContent (syncer w)) in
         let! rc := lift (getRegistryConfOrCreate rsc x) in
         k rc) w = Panic "assignment to entry in nil map" w' ∧
        ch (syncer w') = ch (syncer w).
Proof.
  intros Hnil. eexists. split.
  - erewrite (bind_run (gets _)) by reflexivity.
    apply bind_panic, lift_panic. by apply getRegistryConfOrCreate_nil.
  - reflexivity.
Qed.

Lemma loop_panics {S} (body : string → M S unit) x l s msg s' :
  body x s = Panic msg s' → for_range (x :: l) body s = Panic msg s'.
Proof. intros H. cbn [for_range]. by apply bind_panic. Qed.

Lemma StoreImageRegistryConf_on_nil_index a b i w :
  registriesMap (registriesConfContent (syncer w)) = None →
  Registries (registriesConfContent (syncer w)) = [] →
  Nat.ltb 0 (length a) && Nat.ltb 0 (length b) = false →
  (a ++ b ++ i = [] → ∃ w', StoreImageRegistryConf a b i w = Done None w') ∧
  (a ++ b ++ i ≠ [] →
   ∃ w', StoreImageRegistryConf a b i w = Panic "assignment to entry in nil map" w').
Proof.
  intros Hnil Hregs Hguard. unfold StoreImageRegistryConf. rewrite Hguard.
  erewrite (bind_run (gets _)) by reflexivity. rewrite Hregs.
  erewrite (bind_run (for_range [] _)) by reflexivity.
  erewrite (bind_run (gets _)) by reflexivity.
  erewrite (bind_run (lift _)) by (apply lift_run; reflexivity).
  set (w1 := mkWorld (syncer w) _).
  assert (registriesMap (registriesConfContent (syncer w1)) = None) as Hnil1 by done.
  clearbody w1. split.
  - intros (-> & (-> & ->)%app_eq_nil)%app_eq_nil. by eexists.
  - intros Hne. destruct a as [|x a].
    + erewrite (bind_run (for_range [] _)) by reflexivity.
      destruct b as [|x b].
      * erewrite (bind_run (for_range [] _)) by reflexivity.
        destruct i as [|x i]; [done|].
        destruct (create_round_panics
                    (λ rc, lift (assign_through rc (set_Insecure (Some true)))) x w1 Hnil1)
          as (w' & Hp & _).
        exists w'. apply bind_panic. apply loop_panics. exact Hp.
      * destruct (create_round_panics
                    (λ rc, let! _ := lift (assign_through rc (set_Allowed None)) in
                           let! _ := lift (assign_through rc (set_Blocked (Some true))) in
                           let! pc := gets (λ w, policyConfContent (syncer w)) in
                           lift (setRejectForRegistry pc x)) x w1 Hnil1)
          as (w' & Hp & _).
        exists w'. apply bind_panic. apply loop_panics. exact Hp.
    + destruct (create_round_panics
                  (λ rc, let! _ := lift (assign_through rc (set_Allowed (Some true))) in
                         lift (assign_through rc (set_Blocked None))) x w1 Hnil1)
        as (w' & Hp & _).
      exists w'. apply bind_panic. apply loop_panics. exact Hp.
Qed.

(** X17. On every state the operations reach from the fresh model an
    event of the image configuration that is not dropped makes the
    handler panic as soon as the object names a registry in any of its
    three lists; the handler returns only for an object whose lists are
    all empty. *)
Theorem imageConfigHandler_on_reachable et image w :
  reachable w → dropped et image = false →
  (AllowedRegistries image ++ BlockedRegistries image ++ InsecureRegistries image = [] →
   ∃ w', imageConfigHandler et image w = Done tt w') ∧
  (AllowedRegistries image ++ BlockedRegistries image ++ InsecureRegistries image ≠ [] →
   ∃ w', imageConfigHandler et image w = Panic "assignment to entry in nil map" w').
Proof.
  intros Hreach Hdrop. pose proof (reachable_pristine w Hreach) as (E & _).
  assert (Nat.ltb 0 (length (AllowedRegistries image))
          && Nat.ltb 0 (length (BlockedRegistries image)) = false) as Hguard
    by by destruct et.
  destruct (StoreImageRegistryConf_on_nil_index (AllowedRegistries image)
              (BlockedRegistries image) (InsecureRegistries image) w)
    as (Hdone & Hpanic); [by rewrite E|by rewrite E|exact Hguard|].
  assert (imageConfigHandler et image w =
          (let! err := StoreImageRegistryConf (AllowedRegistries image)
                         (BlockedRegistries image) (InsecureRegistries image) in
           match err with
           | Some _ => ret tt
           | None => ret tt
           end) w) as -> by by destruct et.
  split.
  - intros Hnone. destruct (Hdone Hnone) as (w' & Hrun).
    exists w'. by rewrite (bind_run _ _ _ _ _ Hrun).
  - intros Hsome. destruct (Hpanic Hsome) as (w' & Hrun).
    exists w'. by apply bind_panic.
Qed.

Lemma imageConfigHandler_on_reachable_witness :
  ∃ w', imageConfigHandler Modified (mkRegistrySources [] ["docker.io"] []) fresh_world
        = Panic "assignment to entry in nil map" w'.
Proof.
  refine (proj2 (imageConfigHandler_on_reachable Modified
                   (mkRegistrySources [] ["docker.io"] []) fresh_world reach_fresh _) _);
    [reflexivity|discriminate].
Defined.

(** ** The certificate tree a pass leaves *)

Section Certificates.
Context {fs : Type} (os : OS fs) (content : fs → string → option string).
Hypothesis Hexact : os_exact os content.

Lemma cert_written t st st' q :
  registryCertTuple_writeToFile os t st = Done None st' →
  model st' = model st ∧
  content (disk st') q =
    if String.eqb (cert_path t) q then Some (cert t) else content (disk st) q.
Proof.
  pose proof (exact_local _ _ Hexact) as Hl.
  unfold registryCertTuple_writeToFile, bind, gets, sys, ret, cert_path.
  cbn [model disk calls].
  repeat case_match; intros; simplify_eq; cbn [model disk calls]; (split; [done|]).
  all: destruct (String.eqb_spec (DockerCertsDir +:+ "/" +:+ getFolderName t +:+ "/ca.crt") q)
         as [<-|Hne].
  all: try (apply (WriteString_ok _ _ Hexact); [done|];
            by apply (Create_ok _ _ Hexact)).
  all: rewrite (WriteString_local _ _ Hl), (Create_local _ _ Hl) by done.
  all: by rewrite ?(MkdirAll_local _ _ Hl).
Qed.

Lemma cert_loop_written tuples : ∀ st st' q,
  for_range_err tuples (registryCertTuple_writeToFile os) st = Done None st' →
  content (disk st') q =
    match last_cert tuples q with
    | Some c => Some c
    | None => content (disk st) q
    end.
Proof.
  induction tuples as [|t tuples IH]; intros st st' q Hrun.
  - by injection Hrun as <-.
  - cbn [for_range_err] in Hrun.
    apply bind_Done in Hrun as ([e|] & st1 & Ht & Hrun); [discriminate Hrun|].
    rewrite (IH _ _ q Hrun). cbn [last_cert].
    destruct (last_cert tuples q) as [c|]; [done|].
    destruct (cert_written t st st1 q Ht) as (_ & ->).
    by destruct (String.eqb (cert_path t) q).
Qed.

End Certificates.

Lemma files_os_exact : os_exact (files_os []) (λ d q, d !! q).
Proof.
  split; [apply files_os_local|..];
    cbn [files_os os_Create file_WriteString os_RemoveAll fst snd].
  - intros p d q _ Hq. apply map_lookup_filter_None. right. intros x _. cbn [fst].
    by rewrite Hq.
  - intros p d _. apply lookup_insert_eq.
  - intros p data d _ _. apply lookup_insert_eq.
Qed.



(** ** What SetRegistryPolicy leaves in the index *)

Lemma assign_through_run p f w w1 :
  lift (assign_through p f) w = Done tt w1 →
  ∃ v, objs (mem w) !! p = Some v ∧
       w1 = mkWorld (syncer w) (set_objs (<[p := f v]> (objs (mem w))) (mem w)).
Proof.
  intros (h & Hh & ->)%lift_Done. unfold assign_through in Hh.
  destruct (objs (mem w) !! p) as [v|] eqn:Hv; [|discriminate].
  injection Hh as <-. by exists v.
Qed.

Lemma assign_twice p f g w w1 w2 :
  lift (assign_through p f) w = Done tt w1 →
  lift (assign_through p g) w1 = Done tt w2 →
  lift (assign_through p (g ∘ f)) w = Done tt w2.
Proof.
  intros (v & Hv & ->)%assign_through_run (v' & Hv' & ->)%assign_through_run.
  cbn [mem syncer objs set_objs] in *.
  rewrite list_lookup_insert_eq in Hv' by by eapply lookup_lt_Some.
  injection Hv' as <-.
  apply lift_run. unfold assign_through. rewrite Hv.
  unfold set_objs. cbn [objs rmaps tmaps]. by rewrite list_insert_insert_eq.
Qed.

Lemma create_assign_step x f w p wa wb :
  index_wf w →
  lift (getRegistryConfOrCreate (registriesConfContent (syncer w)) x) w = Done p wa →
  lift (assign_through p f) wa = Done tt wb →
  index_wf wb ∧
  ∀ r', entry wb r' =
        if String.eqb x r' then Some (f (default (created x) (entry w x)))
        else entry w r'.
Proof.
  destruct w as [sy h]. intros (Hm & Hp & Hinj) (h1 & Hc & ->)%lift_Done.
  intros (v & Hv & ->)%assign_through_run. cbn [mem syncer] in *.
  apply getRegistryConfOrCreate_outcomes in Hc
    as (k & t & Ek & Hk & [(Hr & ->)|(Hr & -> & ->)]).
  - pose proof (index_wf_lookup sy h k t Ek Hk) as Hidx. rewrite Hidx in Hp, Hinj.
    split.
    + split; [|split]; cbn [mem syncer registriesConfContent rmaps objs set_objs].
      * intros m0 E. rewrite Ek in E. injection E as <-. eauto.
      * intros k0 p0. rewrite (index_wf_lookup _ _ k t) by done.
        rewrite length_insert. apply Hp.
      * intros k1 k2 p0. rewrite (index_wf_lookup _ _ k t) by done. apply Hinj.
    + intros r'. unfold entry. rewrite Hidx, (index_wf_lookup _ _ k t) by done.
      cbn [mem objs set_objs]. rewrite Hr. cbn [default].
      destruct (String.eqb_spec x r') as [<-|Hne].
      * rewrite Hr, Hv. cbn [default].
        apply list_lookup_insert_eq. by eapply lookup_lt_Some.
      * destruct (t !! r') as [q|] eqn:Hq; [|done].
        apply list_lookup_insert_ne. intros <-. apply Hne. by eapply Hinj.
  - pose proof (index_wf_lookup sy h k t Ek Hk) as Hidx. rewrite Hidx in Hp, Hinj.
    cbn [objs set_objs set_rmaps] in Hv.
    rewrite lookup_app_r in Hv by done. rewrite Nat.sub_diag in Hv.
    injection Hv as <-.
    unfold set_objs, set_rmaps. cbn [mem syncer objs rmaps tmaps].
    rewrite insert_at_end.
    assert (∀ o, index_of (mkWorld sy
                   (mkHeap o (<[k := <[x := length (objs h)]> t]> (rmaps h)) (tmaps h)))
                 = <[x := length (objs h)]> t) as Hidx'.
    { intros o. apply (index_wf_lookup _ _ k); [done|]. cbn [rmaps].
      apply list_lookup_insert_eq. by eapply lookup_lt_Some. }
    split.
    + split; [|split]; cbn [mem syncer registriesConfContent rmaps objs].
      * intros m0 E. rewrite Ek in E. injection E as <-.
        rewrite list_lookup_insert_eq by by eapply lookup_lt_Some. eauto.
      * intros k0 p0. rewrite Hidx'. rewrite length_app. cbn [length].
        intros [[_ <-]|[_ H]]%lookup_insert_Some; [lia|]. apply Hp in H. lia.
      * intros k1 k2 p0. rewrite Hidx'.
        intros [[<- <-]|[N1 H1]]%lookup_insert_Some [[<- E]|[N2 H2]]%lookup_insert_Some.
        -- done.
        -- apply Hp in H2. lia.
        -- apply Hp in H1. lia.
        -- by eapply Hinj.
    + intros r'. unfold entry. rewrite Hidx, Hidx'.
      cbn [mem objs]. rewrite Hr. cbn [default].
      destruct (String.eqb_spec x r') as [<-|Hne].
      * rewrite lookup_insert_eq. rewrite lookup_app_r by done.
        by rewrite Nat.sub_diag.
      * rewrite lookup_insert_ne by done.
        destruct (t !! r') as [q|] eqn:Hq; [|done].
        apply lookup_app_l. by eapply Hp.
Qed.

Lemma index_wf_ext w w1 :
  registriesConfContent (syncer w1) = registriesConfContent (syncer w) →
  rmaps (mem w1) = rmaps (mem w) → length (objs (mem w1)) = length (objs (mem w)) →
  index_wf w → index_wf w1.
Proof.
  intros Hs Hr Hl (Hm & Hp & Hinj).
  assert (index_of w1 = index_of w) as Hi by (unfold index_of; by rewrite Hs, Hr).
  split; [|split].
  - intros m. rewrite Hs, Hr. apply Hm.
  - intros k p. rewrite Hi, Hl. apply Hp.
  - intros k1 k2 p. rewrite Hi. apply Hinj.
Qed.

Lemma policy_step_keeps_index (c : M heap unit) w w1 :
  (∀ h h1, c h = Done tt h1 → objs h1 = objs h ∧ rmaps h1 = rmaps h) →
  lift c w = Done tt w1 →
  (index_wf w → index_wf w1) ∧ sequence_of w1 = sequence_of w ∧
  index_of w1 = index_of w ∧ ∀ r, entry w1 r = entry w r.
Proof.
  intros Hc (h & Hh & ->)%lift_Done. destruct (Hc _ _ Hh) as (Ho & Hr).
  split; [|split; [done|split]].
  - apply index_wf_ext; cbn [mem syncer]; [done|done|by rewrite Ho].
  - unfold index_of. cbn [mem syncer]. by rewrite Hr.
  - intros r. by apply entry_ext.
Qed.

Lemma resetTransports_heap pc h h1 :
  resetTransports pc h = Done tt h1 → objs h1 = objs h ∧ rmaps h1 = rmaps h.
Proof. by intros [= <-]. Qed.

Lemma setRejectForRegistry_heap pc r h h1 :
  setRejectForRegistry pc r h = Done tt h1 → objs h1 = objs h ∧ rmaps h1 = rmaps h.
Proof.
  assert (∀ transport h0 h2,
            setRejectForRegistryOnTransport pc r transport h0 = Done tt h2 →
            objs h2 = objs h0 ∧ rmaps h2 = rmaps h0) as Hone.
  { intros transport h0 h2. unfold setRejectForRegistryOnTransport, tmap_assign.
    repeat case_match; try discriminate. by intros [= <-]. }
  unfold setRejectForRegistry. intros ([] & h0 & H1 & H2)%bind_Done.
  destruct (Hone _ _ _ H1) as (E1 & E2). destruct (Hone _ _ _ H2) as (E3 & E4).
  split; congruence.
Qed.

Lemma reset_loop l : ∀ w w1,
  for_range l (λ rc,
    let! _ := lift (assign_through rc (set_Allowed None)) in
    let! _ := lift (assign_through rc (set_Blocked None)) in
    lift (assign_through rc (set_Insecure None))) w = Done tt w1 →
  syncer w1 = syncer w ∧ rmaps (mem w1) = rmaps (mem w) ∧
  length (objs (mem w1)) = length (objs (mem w)) ∧
  ∀ p, objs (mem w1) !! p =
       if bool_decide (p ∈ l) then unmark <$> objs (mem w) !! p else objs (mem w) !! p.
Proof.
  induction l as [|x l IH]; intros w w1 Hrun.
  - injection Hrun as <-. by repeat split.
  - cbn [for_range] in Hrun. apply bind_Done in Hrun as ([] & wa & Hbody & Hrun).
    apply bind_Done in Hbody as ([] & w2 & H1 & Hbody).
    apply bind_Done in Hbody as ([] & w3 & H2 & H3).
    pose proof (assign_twice _ _ _ _ _ _ (assign_twice _ _ _ _ _ _ H1 H2) H3) as Hall.
    apply assign_through_run in Hall as (v & Hv & ->).
    destruct (IH _ _ Hrun) as (Hs & Hr & Hlen & Ho).
    cbn [mem syncer objs rmaps set_objs] in *.
    split; [done|]. split; [done|]. split; [by rewrite Hlen, length_insert|].
    intros p. rewrite Ho. destruct (decide (p = x)) as [->|Hne].
    + rewrite list_lookup_insert_eq by by eapply lookup_lt_Some.
      rewrite (bool_decide_eq_true_2 (x ∈ x :: l)) by by left.
      rewrite Hv. by destruct (bool_decide (x ∈ l)).
    + rewrite list_lookup_insert_ne by done.
      destruct (decide (p ∈ l)) as [Hin|Hin].
      * rewrite !bool_decide_eq_true_2; [done|by right|done].
      * rewrite !bool_decide_eq_false_2; [done| |done].
        intros [?|?]%elem_of_cons; done.
Qed.

Lemma named_nil f r e : named f [] r e = e.
Proof. unfold named. by rewrite bool_decide_eq_false_2 by apply not_elem_of_nil. Qed.

Lemma named_snoc f done x r (e : string → option registryConf) :
  (∀ v, f (f v) = f v) →
  (if String.eqb x r then Some (f (default (created x) (named f done x (e x))))
   else named f done r (e r)) = named f (done ++ [x]) r (e r).
Proof.
  intros Hf. unfold named. destruct (String.eqb_spec x r) as [->|Hne].
  - rewrite (bool_decide_eq_true_2 (r ∈ done ++ [r]))
      by (apply elem_of_app; right; by left).
    destruct (bool_decide (r ∈ done)); [|done]. cbn. by rewrite Hf.
  - destruct (decide (r ∈ done)) as [Hin|Hin].
    + rewrite !bool_decide_eq_true_2; [done|apply elem_of_app; by left|done].
    + rewrite !bool_decide_eq_false_2; [done| |done].
      intros [?|Hx%list_elem_of_singleton]%elem_of_app; [done|]. by apply Hne.
Qed.

Lemma mark_loop f (body : string → M world unit) l w w' :
  (∀ v, f (f v) = f v) →
  (∀ x s s', index_wf s → body x s = Done tt s' →
     index_wf s' ∧
     ∀ r', entry s' r' = if String.eqb x r' then Some (f (default (created x) (entry s x)))
                         else entry s r') →
  index_wf w → for_range l body w = Done tt w' →
  index_wf w' ∧ ∀ r, entry w' r = named f l r (entry w r).
Proof.
  intros Hf Hbody Hwf Hrun.
  apply (for_range_Done
           (λ done s, index_wf s ∧ ∀ r, entry s r = named f done r (entry w r))
           body) with (done := []) in Hrun; [exact Hrun| |].
  - intros done x s s' (Hwfs & Hes) Hx.
    destruct (Hbody x s s' Hwfs Hx) as (Hwf' & He'). split; [done|].
    intros r. rewrite He', !Hes. by apply named_snoc.
  - split; [done|]. intros r. by rewrite named_nil.
Qed.

Lemma allowed_round x s s' :
  index_wf s →
  (let! rsc := gets (λ w, registriesConfContent (syncer w)) in
   let! rc := lift (getRegistryConfOrCreate rsc x) in
   let! _ := lift (assign_through rc (set_Allowed (Some true))) in
   lift (assign_through rc (set_Blocked None))) s = Done tt s' →
  index_wf s' ∧
  ∀ r', entry s' r' = if String.eqb x r'
                      then Some (mark_allowed (default (created x) (entry s x)))
                      else entry s r'.
Proof.
  intros Hwf Hrun.
  apply bind_Done in Hrun as (rsc & s0 & [-> ->]%gets_Done & Hrun).
  apply bind_Done in Hrun as (p & sa & Hc & Hrun).
  apply bind_Done in Hrun as ([] & sb & H1 & H2).
  exact (create_assign_step _ _ _ _ _ _ Hwf Hc (assign_twice _ _ _ _ _ _ H1 H2)).
Qed.

Lemma blocked_round x s s' :
  index_wf s →
  (let! rsc := gets (λ w, registriesConfContent (syncer w)) in
   let! rc := lift (getRegistryConfOrCreate rsc x) in
   let! _ := lift (assign_through rc (set_Allowed None)) in
   let! _ := lift (assign_through rc (set_Blocked (Some true))) in
   let! pc := gets (λ w, policyConfContent (syncer w)) in
   lift (setRejectForRegistry pc x)) s = Done tt s' →
  index_wf s' ∧
  ∀ r', entry s' r' = if String.eqb x r'
                      then Some (mark_blocked (default (created x) (entry s x)))
                      else entry s r'.
Proof.
  intros Hwf Hrun.
  apply bind_Done in Hrun as (rsc & s0 & [-> ->]%gets_Done & Hrun).
  apply bind_Done in Hrun as (p & sa & Hc & Hrun).
  apply bind_Done in Hrun as ([] & sb & H1 & Hrun).
  apply bind_Done in Hrun as ([] & sc & H2 & Hrun).
  apply bind_Done in Hrun as (pc & s1 & [-> ->]%gets_Done & Hrej).
  destruct (create_assign_step _ _ _ _ _ _ Hwf Hc (assign_twice _ _ _ _ _ _ H1 H2))
    as (Hwfc & Hec).
  destruct (policy_step_keeps_index _ _ _ (setRejectForRegistry_heap _ x) Hrej)
    as (Hk & _ & _ & He).
  split; [by apply Hk|]. intros r'. rewrite He. apply Hec.
Qed.

Lemma insecure_round x s s' :
  index_wf s →
  (let! rsc := gets (λ w, registriesConfContent (syncer w)) in
   let! rc := lift (getRegistryConfOrCreate rsc x) in
   lift (assign_through rc (set_Insecure (Some true)))) s = Done tt s' →
  index_wf s' ∧
  ∀ r', entry s' r' = if String.eqb x r'
                      then Some (mark_insecure (default (created x) (entry s x)))
                      else entry s r'.
Proof.
  intros Hwf Hrun.
  apply bind_Done in Hrun as (rsc & s0 & [-> ->]%gets_Done & Hrun).
  apply bind_Done in Hrun as (p & sa & Hc & H1).
  exact (create_assign_step _ _ _ _ _ _ Hwf Hc H1).
Qed.

Lemma index_wf_singleton w k :
  index_of w = <[k := 0]> ∅ →
  (∀ m, registriesMap (registriesConfContent (syncer w)) = Some m →
        is_Some (rmaps (mem w) !! m)) →
  0 < length (objs (mem w)) → index_wf w.
Proof.
  intros Hidx Hm Hlen. split; [done|split].
  - intros k0 p. rewrite Hidx.
    intros [[_ <-]|[_ H]]%lookup_insert_Some; [done|by rewrite lookup_empty in H].
  - intros k1 k2 p. rewrite Hidx.
    intros [[<- _]|[_ H1]]%lookup_insert_Some [[<- _]|[_ H2]]%lookup_insert_Some;
      first [done|by rewrite lookup_empty in H1|by rewrite lookup_empty in H2].
Qed.

(** X19. What a SetRegistryPolicy call that returns nil leaves in the
    index, for every registry, named by the call or not.  The reset
    reaches the entries the Registries sequence lists and no other; then
    a registry of the allowed list is allowed and not blocked, one of the
    blocked list is blocked and not allowed, one of the insecure list is
    insecure, on a new entry if it had none.  So a registry the call does
    not name, whose entry is not listed (as every entry created through
    the index is), keeps the marks an earlier call gave it. *)
Theorem StoreImageRegistryConf_entries a b i w w' :
  index_wf w →
  StoreImageRegistryConf a b i w = Done None w' →
  index_wf w' ∧
  ∀ r, entry w' r =
       named mark_insecure i r
         (named mark_blocked b r
            (named mark_allowed a r
               (if listed w r then unmark <$> entry w r else entry w r))).
Proof.
  intros Hwf Hrun. unfold StoreImageRegistryConf in Hrun.
  destruct (_ && _); [discriminate Hrun|].
  apply bind_Done in Hrun as (regs & s0 & [-> ->]%gets_Done & Hrun).
  apply bind_Done in Hrun as ([] & w1 & Hreset & Hrun).
  apply bind_Done in Hrun as (pc & s1 & [-> ->]%gets_Done & Hrun).
  apply bind_Done in Hrun as ([] & w2 & Hpol & Hrun).
  apply bind_Done in Hrun as ([] & w3 & Ha & Hrun).
  apply bind_Done in Hrun as ([] & w4 & Hb & Hrun).
  apply bind_Done in Hrun as ([] & w5 & Hi & Hrun).
  apply bind_Done in Hrun as ([] & w6 & Hsend & [_ <-]%ret_Done).
  destruct (reset_loop _ _ _ Hreset) as (Hs1 & Hr1 & Hl1 & Ho1).
  assert (index_wf w1) as Hwf1 by (eapply index_wf_ext; [by rewrite Hs1|done..]).
  assert (∀ r, entry w1 r = if listed w r then unmark <$> entry w r else entry w r) as He1.
  { intros r. unfold entry, listed, index_of, sequence_of. rewrite Hs1, Hr1.
    destruct (match registriesMap _ with Some _ => _ | None => _ end !! r) as [p|];
      [|done].
    rewrite Ho1. by destruct (bool_decide _). }
  destruct (policy_step_keeps_index _ _ _ (resetTransports_heap _) Hpol)
    as (Hk2 & _ & _ & He2).
  destruct (mark_loop mark_allowed _ _ _ _ ltac:(done) allowed_round (Hk2 Hwf1) Ha)
    as (Hwf3 & He3).
  destruct (mark_loop mark_blocked _ _ _ _ ltac:(done) blocked_round Hwf3 Hb)
    as (Hwf4 & He4).
  destruct (mark_loop mark_insecure _ _ _ _ ltac:(done) insecure_round Hwf4 Hi)
    as (Hwf5 & He5).
  destruct (send_step _ _ _ Hsend) as (He6 & _).
  split.
  - injection Hsend as <-. revert Hwf5. apply index_wf_ext; by destruct w5.
  - intros r. by rewrite He6, He5, He4, He3, He2, He1.
Qed.

Lemma StoreImageRegistryConf_entries_witness :
  ∃ w', StoreImageRegistryConf [] ["docker.io"] ["docker.io"] allowed_world = Done None w' ∧
        entry w' "quay.io" = Some (mkRegistryConf "quay.io" "" [] None (Some true) None) ∧
        entry w' "docker.io"
          = Some (mkRegistryConf "docker.io" "" [] (Some true) None (Some true)).
Proof.
  assert (index_wf allowed_world) as Hwf.
  { apply (index_wf_singleton _ "quay.io"); [reflexivity| |vm_compute; lia].
    intros m [= <-]. by eexists. }
  assert (StoreImageRegistryConf [] ["docker.io"] ["docker.io"] allowed_world
          = Done None (after (StoreImageRegistryConf [] ["docker.io"] ["docker.io"]
                                allowed_world))) as Hrun by (vm_compute; reflexivity).
  eexists. split; [exact Hrun|].
  destruct (StoreImageRegistryConf_entries _ _ _ _ _ Hwf Hrun) as (_ & He).
  by rewrite !He.
Defined.

(** ** Two registries, one certificate folder *)

Lemma append_cancel pre a b : pre +:+ a = pre +:+ b → a = b.
Proof. induction pre as [|c pre IH]; cbn; [done|]. intros [= H]. by apply IH. Qed.

Lemma last_cert_later l1 u l3 :
  Forall (λ v, cert_path v ≠ cert_path u) l3 →
  last_cert (l1 ++ u :: l3) (cert_path u) = Some (cert u).
Proof.
  intros Hl3.
  assert (last_cert l3 (cert_path u) = None) as Hnone.
  { induction Hl3 as [|v l3 Hv _ IH]; [done|]. cbn [last_cert]. rewrite IH.
    by destruct (String.eqb_spec (cert_path v) (cert_path u)). }
  induction l1 as [|v l1 IH]; cbn [app last_cert].
  - by rewrite Hnone, String.eqb_refl.
  - by rewrite IH.
Qed.

Lemma sync_leaves_last_certs {fs} (os : OS fs) content st st' q :
  os_exact os content →
  sync os st = Done None st' →
  under DockerCertsDir q = true →
  content (disk st') q = last_cert (registryCertTuples (syncer (model st))) q.
Proof.
  intros Hexact Hrun Hq. unfold sync in Hrun.
  apply bind_Done in Hrun as (rsc & s0 & [-> ->]%gets_Done & Hrun).
  apply bind_Done in Hrun as ([e|] & st1 & H1 & Hrun); [discriminate Hrun|].
  apply bind_Done in Hrun as (pc & s1 & [-> ->]%gets_Done & Hrun).
  apply bind_Done in Hrun as ([e|] & st3 & H2 & Hrun); [discriminate Hrun|].
  apply bind_Done in Hrun as (err & st4 & H3 & Hrun).
  unfold sys in H3. injection H3 as Herr <-.
  destruct err as [e|]; [discriminate Hrun|].
  apply bind_Done in Hrun as (tuples & s2 & [-> ->]%gets_Done & Hrun).
  cbn [model] in Hrun.
  rewrite (cert_loop_written os content Hexact _ _ _ q Hrun). cbn [disk].
  rewrite (RemoveAll_ok _ _ Hexact) by done.
  assert (model st3 = model st) as ->.
  { destruct (exec_facts os StepPolicy st1) as (r2 & s2 & _ & E2 & M2 & _).
    destruct (exec_facts os StepRegistries st) as (r1 & s1 & _ & E1 & M1 & _).
    cbn [exec] in E1, E2. unfold bind, gets in E1, E2.
    rewrite H1 in E1. injection E1 as <- <-. rewrite H2 in E2. injection E2 as <- <-.
    congruence. }
  by destruct (last_cert _ q).
Qed.

Lemma cert_path_under t : under DockerCertsDir (cert_path t) = true.
Proof. reflexivity. Qed.



(** * The two invariants where entries exist

    On the states reached from the fresh model no entry and no reject
    rule ever exists ([reachable_pristine]): every call that names a
    registry panics on the nil index.  What the operations do to the
    invariants shows on a model whose index is allocated. *)

Lemma blocked_registries_get_rules a b i w w' r :
  StoreImageRegistryConf a b i w = Done None w' → r ∈ b →
  has_reject w' dockerTransport r ∧ has_reject w' atomicTransport r.
Proof.
  unfold StoreImageRegistryConf. destruct (_ && _); [discriminate|].
  intros Hrun Hr. cbv zeta in Hrun.
  apply bind_Done in Hrun as (regs & w0 & _ & Hrun).
  apply bind_Done in Hrun as ([] & w1 & _ & Hrun).
  apply bind_Done in Hrun as (pc & w1' & _ & Hrun).
  apply bind_Done in Hrun as ([] & w2 & _ & Hrun).
  apply bind_Done in Hrun as ([] & w3 & _ & Hrun).
  apply bind_Done in Hrun as ([] & w4 & Hloop_b & Hrun).
  apply bind_Done in Hrun as ([] & w5 & Hloop_i & Hrun).
  apply bind_Done in Hrun as ([] & w6 & Hsend & Hrun).
  injection Hrun as <-.
  assert (has_reject w4 dockerTransport r ∧ has_reject w4 atomicTransport r) as H4.
  { refine (for_range_Done
              (λ done s, ∀ x, x ∈ done →
                 has_reject s dockerTransport x ∧ has_reject s atomicTransport x)
              _ _ b [] _ _ _ Hloop_b r Hr).
    - intros done x s s' HI Hround y Hy.
      destruct (round_blocked _ _ _ Hround) as ((_ & Hd & Ha) & _ & Hrej).
      apply elem_of_app in Hy as [Hy|Hy];
        [|by apply list_elem_of_singleton in Hy as ->].
      destruct (HI y Hy). split; by apply Hrej.
    - by intros y Hy%elem_of_nil. }
  assert (has_reject w5 dockerTransport r ∧ has_reject w5 atomicTransport r) as H5.
  { refine (for_range_Done
              (λ _ s, has_reject s dockerTransport r ∧ has_reject s atomicTransport r)
              _ _ i [] _ _ H4 Hloop_i).
    intros done x s s' [Hd Ha] Hround.
    destruct (round_insecure _ _ _ Hround) as (_ & _ & _ & _ & Hrej).
    split; by apply Hrej. }
  destruct (send_step _ _ _ Hsend) as [_ Hrules].
  unfold has_reject in *. by rewrite !Hrules.
Qed.


